(** * Probabilistic active learning (skactiveml/pool/_probal.py)

    A shallow embedding of the numeric core of [_probal.py]: the label-vector
    enumeration, the optimal prior, the metric transform, the closed-form
    expected cost reduction, the non-myopic gain and the greedy / full batch
    selection of [XPAL.query].

    Conventions.
    - numpy integer arrays are lists of [Z]; numpy float arrays are lists of
      [R]: float arithmetic is read as exact real arithmetic. Sums and
      products are right folds; over [Z] and [R] the order is immaterial.
      Where a property depends on the overflow of doubles, the functions are
      embedded a second time over binary64 numbers ([Module Float64]).
    - a Python call that can raise is a [PyErr + A]; [XPAL.query], which also
      performs observable work (warnings, kernel evaluations, ...), lives in a
      small log-and-error monad.
    - definitions come first (Part I), their properties after (Part II).
    - collaborators that are not part of the file ([np.linalg.inv], [gammaln],
      the classifier, the kernel, [rand_argmax], ...) are Section variables. *)

From Stdlib Require Import String List ZArith Arith Lia Reals Lra Permutation Bool.
From Stdlib Require Import Floats.
Import ListNotations.

Set Implicit Arguments.

(** ** Python exceptions and results *)

Inductive PyErr : Type :=
| TypeError
| ValueError
| IndexError
| NotImplementedError
| LinAlgError
| UnboundLocalError.

Definition result (A : Type) : Type := (PyErr + A)%type.

Definition raise {A : Type} (e : PyErr) : result A := inl e.

Definition bind {A B : Type} (c : result A) (k : A -> result B) : result B :=
  match c with
  | inl e => inl e
  | inr a => k a
  end.

Declare Scope py_scope.
Delimit Scope py_scope with py.
Notation "x <- c ;; k" := (bind c (fun x => k))
  (at level 61, c at next level, right associativity) : py_scope.

(** A [for _ in range(n)] loop threading a state through its body. *)
Fixpoint for_range {S : Type} (n : nat) (body : S -> S) (s : S) : S :=
  match n with
  | O => s
  | Datatypes.S k => for_range k body (body s)
  end.

(** ** Integer helpers (numpy on integer arrays) *)

(** [np.arange(n)]. *)
Definition arange (n : Z) : list Z := map Z.of_nat (seq 0 (Z.to_nat n)).

(** [sum(l)] / [np.sum(l)] on integers. *)
Definition sum_int (l : list Z) : Z := fold_right Z.add 0%Z l.

(** Binomial coefficients by Pascal's rule. *)
Fixpoint binom (n k : nat) : nat :=
  match n, k with
  | _, O => 1
  | O, S _ => 0
  | S n', S k' => binom n' k' + binom n' (S k')
  end.

(** ** _gen_l_vec_list (lines 793-827) *)

(** One pass of the outer loop (lines 814-820): every partial vector is
    extended by every [newLabel] of [label_vec_res] that passes the mask
    [label_vec_res - (m_approx - sum(labelVec)) <= 1e-10]; on integers the
    mask is [<= 0]. *)
Definition extend_label_vecs (m_approx : Z) (label_vec_list : list (list Z))
  : list (list Z) :=
  let label_vec_res := arange (m_approx + 1) in
  flat_map
    (fun labelVec =>
       map (fun newLabel => labelVec ++ [newLabel])
           (filter (fun x => (x - (m_approx - sum_int labelVec) <=? 0)%Z)
                   label_vec_res))
    label_vec_list.

Definition _gen_l_vec_list (m_approx : Z) (n_classes : nat) : list (list Z) :=
  let label_vec_list :=
    for_range (n_classes - 1) (extend_label_vecs m_approx) [[]] in
  map (fun labelVec => labelVec ++ [(m_approx - sum_int labelVec)%Z])
      label_vec_list.

(** What a label vector is (spec, section 3): [n] non-negative integers that
    sum to [m]. *)
Definition is_label_vector (n : nat) (m : Z) (l : list Z) : Prop :=
  length l = n /\ Forall (fun x => (0 <= x)%Z) l /\ sum_int l = m.

(** Proof device: the vectors of length [i] with non-negative entries and sum
    at most [r], built from the front. *)
Fixpoint bounded_vecs (i r : nat) : list (list Z) :=
  match i with
  | O => [[]]
  | S i' =>
      flat_map (fun x => map (cons (Z.of_nat x)) (bounded_vecs i' (r - x)))
               (seq 0 (S r))
  end.

(** ** Real vectors and matrices (numpy on float arrays) *)

Definition matrix : Type := list (list R).

Fixpoint map2 {A B C : Type} (f : A -> B -> C) (l1 : list A) (l2 : list B)
  : list C :=
  match l1, l2 with
  | a :: l1', b :: l2' => f a b :: map2 f l1' l2'
  | _, _ => []
  end.

(** [np.sum] of a float array. *)
Definition sum_R (l : list R) : R := fold_right Rplus 0%R l.

Definition vadd (u v : list R) : list R := map2 Rplus u v.
Definition vmul (u v : list R) : list R := map2 Rmult u v.
Definition vscale (c : R) (v : list R) : list R := map (Rmult c) v.
Definition dot (u v : list R) : R := sum_R (vmul u v).

(** [np.zeros(n)], [np.ones(n)], [np.full([n], x)]. *)
Definition np_zeros (n : nat) : list R := repeat 0%R n.
Definition np_ones (n : nat) : list R := repeat 1%R n.
Definition np_full {A : Type} (n : nat) (x : A) : list A := repeat x n.

(** [np.eye(n)]. *)
Fixpoint eye (n : nat) : matrix :=
  match n with
  | O => []
  | S k => (1%R :: np_zeros k) :: map (cons 0%R) (eye k)
  end.

Definition ncols (A : matrix) : nat := length (hd [] A).

(** Row vector times matrix with [c] columns: the sum of the rows of [A]
    scaled by the entries of [v]. *)
Fixpoint vecmat_acc (c : nat) (v : list R) (A : matrix) : list R :=
  match v, A with
  | x :: v', row :: A' => vadd (vscale x row) (vecmat_acc c v' A')
  | _, _ => np_zeros c
  end.

(** [v @ A] and [A @ B]. *)
Definition vecmat (v : list R) (A : matrix) : list R := vecmat_acc (ncols A) v A.
Definition matmul (A B : matrix) : matrix := map (fun row => vecmat row B) A.

(** Column [j] of a matrix, [A[:, j]]. *)
Definition column (A : matrix) (j : nat) : list R := map (fun row => nth j row 0%R) A.

Definition Rleb (x y : R) : bool := if Rle_dec x y then true else false.
Definition Rltb (x y : R) : bool := if Rlt_dec x y then true else false.

(** [np.all(v >= 0)]. *)
Definition all_nonneg (v : list R) : bool := forallb (Rleb 0) v.

(** [A] is [n] by [n]. *)
Definition square (n : nat) (A : matrix) : Prop :=
  length A = n /\ Forall (fun row => length row = n) A.

(** ** calculate_optimal_prior (lines 707-716) *)

(** [len(x)] of a value that may be [None]. *)
Definition py_len {A : Type} (x : option (list A)) : result nat :=
  match x with
  | None => raise TypeError
  | Some l => inr (length l)
  end.

Section OptimalPrior.

(** [np.linalg.inv]: raises [LinAlgError] on a singular or non-square input. *)
Variable linalg_inv : matrix -> result matrix.

Definition calculate_optimal_prior (cost_matrix : option matrix)
  : result (list R) :=
  (n_classes <- py_len cost_matrix ;;
   match cost_matrix with
   | None => inr (np_full n_classes (1 / INR n_classes)%R)
   | Some cm =>
       inv <- linalg_inv cm ;;
       let M := matmul [np_ones (length cm)] inv in
       let M0 := nth 0 M [] in
       if all_nonneg M0
       then inr (map (fun x => (x / sum_R (concat M))%R) M0)
       else inr (np_full n_classes (1 / INR n_classes)%R)
   end)%py.

End OptimalPrior.

(** The documented contract of [np.linalg.inv] on an [n] by [n] input:
    [inv(a) @ a = eye(n)], with the inverse of the same shape. *)
Definition inverse_of (n : nat) (C Ci : matrix) : Prop :=
  square n C /\ square n Ci /\ matmul Ci C = eye n.

(** The column sums of a matrix, [A[0][j] + ... + A[n-1][j]] for each [j]. *)
Definition column_sums (A : matrix) : list R :=
  map (fun j => sum_R (column A j)) (seq 0 (ncols A)).

(** A reference inverse for 2 by 2 matrices (adjugate over determinant),
    used to instantiate [np.linalg.inv] in examples. *)
Definition inv_2x2 (A : matrix) : result matrix :=
  match A with
  | [[a; b]; [c; d]] =>
      let det := (a * d - b * c)%R in
      if Req_dec_T det 0 then raise LinAlgError
      else inr [[(d / det)%R; (- b / det)%R]; [(- c / det)%R; (a / det)%R]]
  | _ => raise LinAlgError
  end.

(** ** _transform_metric (lines 611-656) *)

(** An array-like argument: 1-D or 2-D float array. *)
Inductive ndarray : Type :=
| Arr1 (v : list R)
| Arr2 (m : matrix).

(** [a.shape]. *)
Definition shape (a : ndarray) : list Z :=
  match a with
  | Arr1 v => [Z.of_nat (length v)]
  | Arr2 m => [Z.of_nat (length m); Z.of_nat (ncols m)]
  end.

(** [a.reshape(-1, 1)] read back as the flat list of entries. *)
Definition flatten (a : ndarray) : list R :=
  match a with
  | Arr1 v => v
  | Arr2 m => concat m
  end.

(** The two kinds of Python value that line 617 compares. *)
Inductive pyval : Type :=
| PyInt (n : Z)
| PyTuple (t : list Z).

(** Python's [!=]: a tuple and an int are never equal. *)
Definition py_ne (a b : pyval) : bool :=
  match a, b with
  | PyInt x, PyInt y => negb (x =? y)%Z
  | PyTuple s, PyTuple t => if list_eq_dec Z.eq_dec s t then false else true
  | _, _ => true
  end.

(** [v.reshape(-1, 1) @ np.ones([1, n])]. *)
Definition outer_ones (v : list R) (n : nat) : matrix :=
  matmul (map (fun x => [x]) v) [np_ones n].

(** [np.fill_diagonal(A, x)], from row [i] on with the diagonal at column [i]. *)
Fixpoint fill_diagonal_from (i : nat) (A : matrix) (x : R) : matrix :=
  match A with
  | [] => []
  | row :: A' =>
      (if i <? length row then firstn i row ++ x :: skipn (S i) row else row)
        :: fill_diagonal_from (S i) A' x
  end.

Definition fill_diagonal (A : matrix) (x : R) : matrix := fill_diagonal_from 0 A x.

(** [A.T]. *)
Definition transpose (A : matrix) : matrix := map (column A) (seq 0 (ncols A)).

(** Element-wise [f] on two matrices of one shape. *)
Definition mat_map2 (f : R -> R -> R) (A B : matrix) : matrix := map2 (map2 f) A B.

(** Python's [a[-1]] on a list. *)
Definition last_R (l : list R) : R := last l 0%R.

(** Lines 683-704: performance functions on a confusion matrix. *)
Definition diagonal (A : matrix) : list R :=
  map (fun i => nth i (nth i A []) 0%R) (seq 0 (Nat.min (length A) (ncols A))).

Definition score_recall (conf_matrix : matrix) : R :=
  (last_R (last conf_matrix []) / sum_R (last conf_matrix []))%R.

Definition macro_accuracy_func (conf_matrix : matrix) : R :=
  (sum_R (map2 Rdiv (diagonal conf_matrix) (map sum_R conf_matrix))
   / INR (length (diagonal conf_matrix)))%R.

Definition score_accuracy (conf_matrix : matrix) : R :=
  (sum_R (diagonal conf_matrix) / sum_R (concat conf_matrix))%R.

Definition score_precision (conf_matrix : matrix) : R :=
  let pos_pred := sum_R (map last_R conf_matrix) in
  if Rltb 0 pos_pred
  then (last_R (last conf_matrix []) / pos_pred)%R
  else 0%R.

Definition f1_score_func (conf_matrix : matrix) : R :=
  let recall := score_recall conf_matrix in
  let precision := score_precision conf_matrix in
  let norm := (recall + precision)%R in
  if Rltb 0 norm then (2 * recall * precision / norm)%R else 0%R.

Definition perf_fn : Type := matrix -> R.

Section TransformMetric.

(** [skactiveml.utils.check_cost_matrix]: raises on an invalid matrix. *)
Variable check_cost_matrix : ndarray -> nat -> result unit.

Definition _transform_metric (metric : string)
    (cost_matrix cost_vector : option ndarray) (perf_func : option perf_fn)
    (n_classes : nat)
  : result (string * option ndarray * option perf_fn) :=
  if (metric =? "error")%string then
    inr ("misclassification-loss"%string,
         Some (Arr2 (map (map (fun x => 1 - x)%R) (eye n_classes))),
         None)
  else if (metric =? "cost-vector")%string then
    match cost_vector with
    | None => raise ValueError
    | Some cv =>
        if py_ne (PyTuple (shape cv)) (PyInt (Z.of_nat n_classes))
        then raise ValueError
        else
          let cost_matrix := outer_ones (flatten cv) n_classes in
          let cost_matrix := fill_diagonal cost_matrix 0 in
          inr ("misclassification-loss"%string, Some (Arr2 cost_matrix), None)
    end
  else if (metric =? "misclassification-loss")%string then
    match cost_matrix with
    | None => raise ValueError
    | Some cm =>
        (_ <- check_cost_matrix cm n_classes ;;
         inr ("misclassification-loss"%string, Some cm, None))%py
    end
  else if (metric =? "mean-abs-error")%string then
    let row_matrix := outer_ones (map INR (seq 0 n_classes)) n_classes in
    let cost_matrix :=
      map (map Rabs) (mat_map2 Rminus row_matrix (transpose row_matrix)) in
    inr ("misclassification-loss"%string, Some (Arr2 cost_matrix), None)
  else if (metric =? "macro-accuracy")%string then
    inr ("custom"%string, None, Some macro_accuracy_func)
  else if (metric =? "f1-score")%string then
    inr ("custom"%string, None, Some f1_score_func)
  else if (metric =? "cohens-kappa")%string then
    inr ("custom"%string, None, perf_func)
  else raise ValueError.

End TransformMetric.

(** What the spec's table promises for [cost-vector]: the outer product of
    the vector with ones, with a zero diagonal. *)
Definition cost_vector_matrix (v : list R) : matrix :=
  map (fun i => map (fun j => if i =? j then 0%R else nth i v 0%R)
                    (seq 0 (length v)))
      (seq 0 (length v)).

(** ** Indexing helpers *)

Fixpoint mapM {A B : Type} (f : A -> result B) (l : list A) : result (list B) :=
  match l with
  | [] => inr []
  | a :: l' => (b <- f a ;; bs <- mapM f l' ;; inr (b :: bs))%py
  end.

(** An integer index into an axis of length [len]: negative indices count
    from the end, anything outside [-len, len) raises [IndexError]. *)
Definition np_index (len : nat) (i : Z) : result nat :=
  if ((- Z.of_nat len <=? i) && (i <? Z.of_nat len))%Z
  then inr (Z.to_nat (i mod Z.of_nat len))
  else raise IndexError.

(** [l[i]]. *)
Definition py_nth {A : Type} (l : list A) (i : Z) : result A :=
  (k <- np_index (length l) i ;;
   match nth_error l k with
   | Some a => inr a
   | None => raise IndexError
   end)%py.

(** [l[idx]] for an index array [idx] (fancy indexing along the first axis). *)
Definition np_take {A : Type} (l : list A) (idx : list Z) : result (list A) :=
  mapM (py_nth l) idx.

(** [np.max] / [np.nanmax] of a row; a zero-size row raises [ValueError]. *)
Definition np_max (row : list R) : result R :=
  match row with
  | [] => raise ValueError
  | x :: rest => inr (fold_left Rmax rest x)
  end.

(** [np.prod]. *)
Definition prod_R (l : list R) : R := fold_right Rmult 1%R l.

(** ** _get_y_sim_list (lines 604-608) *)

(** [itertools.product] of [n_instances] copies of [range(n_classes)]. *)
Fixpoint label_product (n_classes n_instances : nat) : list (list nat) :=
  match n_instances with
  | O => [[]]
  | S k => flat_map (fun c => map (cons c) (label_product n_classes k))
                    (seq 0 n_classes)
  end.

Definition _get_y_sim_list (n_classes n_instances : nat)
    (all_sim_labels_equal : bool) : list (list nat) :=
  if all_sim_labels_equal
  then map (fun c => repeat c n_instances) (seq 0 n_classes)
  else label_product n_classes n_instances.

(** ** dependent_cand_prob (lines 580-602) and nonmyopic_gain (lines 478-578) *)

Inductive gain_mode : Type := Nonmyopic | Batch.

(** A Python call with [n_args] positional arguments to a function of
    [n_params] parameters, none with a default. *)
Definition call_positional {A : Type} (n_params n_args : nat) (body : result A)
  : result A :=
  if n_args =? n_params then body else raise TypeError.

(** [M[i, j] = x]; [i], [j] come from enumerating the array's own shape. *)
Definition set_cell (M : matrix) (i j : nat) (x : R) : matrix :=
  firstn i M
  ++ match skipn i M with
     | [] => []
     | row :: rest => (firstn j row ++ match skipn j row with
                                       | [] => []
                                       | _ :: t => x :: t
                                       end) :: rest
     end.

(** [M /= np.arange(1, M.shape[1] + 1).reshape(1, -1)]. *)
Definition divide_by_depth (M : matrix) : matrix :=
  map (fun row => map2 Rdiv row (map INR (seq 1 (length row)))) M.

(** [[org[:(i+1)] for i in range(len(org))]]. *)
Definition prefixes {A : Type} (org : list A) : list (list A) :=
  map (fun i => firstn (i + 1) org) (seq 0 (length org)).

(** [cand_idx_set.shape[1]]: an array built from an empty list is 1-D. *)
Definition shape1 {A : Type} (cand_idx_set : list (list A)) : result nat :=
  match cand_idx_set with
  | [] => raise IndexError
  | org :: _ => inr (length org)
  end.

(** A loop over [enumerate(l)] threading a state, stopped by the first
    exception. *)
Fixpoint for_enumerate {A S : Type} (i : nat) (l : list A)
    (body : nat -> A -> S -> result S) (s : S) : result S :=
  match l with
  | [] => inr s
  | a :: l' => (s' <- body i a s ;; for_enumerate (Datatypes.S i) l' body s')%py
  end.

Section NonmyopicGain.

(** [len(X_c)], [len(X)], and whether [X_eval is None]. *)
Variables (n_cand n_lbld : nat) (X_eval_is_None : bool).

(** [prob_estimator_cand.predict_proba(K_c_x)] after fitting on [(X, y)]:
    the estimate for candidate [i] and class [c]. *)
Variable prob_cand_X : nat -> nat -> R.

(** [prob_estimator.predict_proba] after fitting on [X] plus the candidates
    [hist] labelled [labels]: the estimate for candidate [i] and class [c]. *)
Variable cond_prob : list Z -> list nat -> Z -> nat -> R.

(** The value of [_dperf(...)] once the estimator and the classifier are
    refitted with the candidates [cand_idx] labelled [y_sim]. *)
Variable perf_delta : list Z -> list nat -> R.

(** The content of a cell of [np.empty] before it is written. *)
Variable uninit : R.

Definition dependent_cand_prob (cand_idx : list Z) (y_sim_list : list (list nat))
  : list R :=
  map (fun y_sim =>
         fold_left
           (fun acc i_y =>
              (acc * cond_prob (firstn i_y cand_idx) (firstn i_y y_sim)
                               (nth i_y cand_idx 0%Z) (nth i_y y_sim 0%nat))%R)
           (seq 0 (length y_sim)) 1%R)
      y_sim_list.

(** Lines 533-573: the body of the inner loop, the value left in
    [tmp_utilities[i_org_cand_idx, i_cand_idx]]. *)
Definition gain_cell (y_sim_lists : list (list (list nat)))
    (nonmyopic_independence : bool) (cand_idx : list Z) : result R :=
  (_ <- mapM (np_index (n_cand + n_lbld)) cand_idx ;;
   _ <- (if X_eval_is_None then mapM (np_index n_cand) cand_idx else inr []) ;;
   y_sim_list <- py_nth y_sim_lists (Z.of_nat (length cand_idx) - 1) ;;
   prob_y_sim <-
     (if nonmyopic_independence then
        rows <- mapM (np_index n_cand) cand_idx ;;
        inr (map (fun y_sim => prod_R (map2 prob_cand_X rows y_sim)) y_sim_list)
      else
        call_positional 9 10 (inr (dependent_cand_prob cand_idx y_sim_list))) ;;
   inr (fold_left (fun acc yp => (acc + perf_delta cand_idx (fst yp) * snd yp)%R)
                  (combine y_sim_list prob_y_sim) 0%R))%py.

Definition nonmyopic_gain (cand_idx_set : list (list Z)) (n_classes : nat)
    (mode : gain_mode) (nonmyopic_independence all_sim_labels_equal : bool)
  : result matrix :=
  let tmp_utilities :=
    match mode with
    | Nonmyopic =>
        map (fun org => np_full (length org) uninit) cand_idx_set
    | Batch => np_full (length cand_idx_set) [uninit]
    end in
  (n_cols <- shape1 cand_idx_set ;;
   let y_sim_lists :=
     map (fun n => _get_y_sim_list n_classes n all_sim_labels_equal)
         (seq 1 n_cols) in
   for_enumerate 0 cand_idx_set
     (fun i_org_cand_idx org_cand_idx tmp_utilities =>
        let cand_idx_subsets :=
          match mode with
          | Nonmyopic => prefixes org_cand_idx
          | Batch => [org_cand_idx]
          end in
        tmp_utilities <-
          for_enumerate 0 cand_idx_subsets
            (fun i_cand_idx cand_idx tmp_utilities =>
               v <- gain_cell y_sim_lists nonmyopic_independence cand_idx ;;
               inr (set_cell tmp_utilities i_org_cand_idx i_cand_idx v))
            tmp_utilities ;;
        inr (match mode with
             | Nonmyopic => divide_by_depth tmp_utilities
             | Batch => tmp_utilities
             end))
     tmp_utilities)%py.

(** The probability-weighted sum of performance deltas for one index set
    under independence, as the spec words it (section 4.5, step 5). *)
Definition weighted_delta (n_classes : nat) (all_sim_labels_equal : bool)
    (cand_idx : list Z) : R :=
  sum_R (map (fun y_sim =>
                (prod_R (map2 (fun i c => prob_cand_X (Z.to_nat i) c) cand_idx y_sim)
                 * perf_delta cand_idx y_sim)%R)
             (_get_y_sim_list n_classes (length cand_idx) all_sim_labels_equal)).

End NonmyopicGain.

(** ** XPAL.query (lines 287-466) *)

(** What a run of [query] does besides computing its result. *)
Inductive event : Type :=
| EvWarn                                   (* warnings.warn *)
| EvPrior                                  (* calculate_optimal_prior *)
| EvKernel                                 (* one call of the kernel K *)
| EvGain (cand_idx_set : list (list Z)).   (* one call of nonmyopic_gain *)


Definition is_gain (e : event) : bool :=
  match e with
  | EvGain _ => true
  | _ => false
  end.

(** Computations that log events and may raise. *)
Definition M (A : Type) : Type := (list event * result A)%type.

Definition retM {A : Type} (a : A) : M A := ([], inr a).
Definition emit (e : event) : M unit := ([e], inr tt).
Definition lift {A : Type} (r : result A) : M A := ([], r).

Definition bindM {A B : Type} (c : M A) (k : A -> M B) : M B :=
  match snd c with
  | inl e => (fst c, inl e)
  | inr a => (fst c ++ fst (k a), snd (k a))
  end.

Declare Scope log_scope.
Delimit Scope log_scope with log.
Notation "x <- c ;; k" := (bindM c (fun x => k))
  (at level 61, c at next level, right associativity) : log_scope.
Notation "c ;;; k" := (bindM c (fun _ => k))
  (at level 61, right associativity) : log_scope.

(** [for i in l: s = body(i, s)] in [M]. *)
Fixpoint forM {S : Type} (l : list nat) (body : nat -> S -> M S) (s : S) : M S :=
  match l with
  | [] => retM s
  | i :: l' => (s' <- body i s ;; forM l' body s')%log
  end.

(** The constructor arguments of [XPAL] that [query] reads. *)
Record XPAL : Type := {
  metric : string;
  cost_vector : option ndarray;
  cost_matrix : option ndarray;
  custom_perf_func : option perf_fn;
  prior_cand : R;
  prior_eval : R;
  batch_mode : string;
  all_sim_labels_equal : bool;
  nonmyopic_look_ahead : nat;
  nonmyopic_neighbors : string;
  nonmyopic_independence : bool
}.

(** Lines 268-276 of [_validate_input]: the effective batch size. The
    scalar check is [skactiveml.utils.check_scalar] with [min_val=1]. The
    checks of lines 259-266 before it are not part of this definition. *)
Definition _validate_input (n_cand : nat) (batch_size : Z) : M Z :=
  (_ <- lift (if (batch_size <? 1)%Z then raise ValueError else inr tt) ;;
   if (Z.of_nat n_cand <? batch_size)%Z
   then (emit EvWarn ;;; retM (Z.of_nat n_cand))
   else retM batch_size)%log.

(** [np.unique]: sorted, without repetitions. *)
Fixpoint insert_unique (x : Z) (l : list Z) : list Z :=
  match l with
  | [] => [x]
  | y :: l' =>
      if (x <? y)%Z then x :: l
      else if (x =? y)%Z then l
      else y :: insert_unique x l'
  end.

Definition np_unique (l : list Z) : list Z := fold_right insert_unique [] l.

(** [np.setdiff1d(a, b)]: the sorted unique values of [a] that are not in [b]. *)
Definition setdiff1d (a b : list Z) : list Z :=
  filter (fun x => negb (existsb (Z.eqb x) (np_unique b))) (np_unique a).

(** [itertools.permutations(l, k)]. *)
Fixpoint permutations_pos (k : nat) (l : list nat) : list (list nat) :=
  match k with
  | O => [[]]
  | S k' =>
      flat_map (fun i => map (cons i)
                             (filter (fun p => negb (existsb (Nat.eqb i) p))
                                     (permutations_pos k' l)))
               l
  end.

Definition permutations (n k : nat) : list (list Z) :=
  map (map Z.of_nat) (permutations_pos k (seq 0 n)).

(** [best_indices[i] = x]. *)
Definition set_nth {A : Type} (l : list A) (i : nat) (x : A) : result (list A) :=
  if i <? length l then inr (firstn i l ++ x :: skipn (S i) l)
  else raise IndexError.

(** [K(X1, X2)], a call of [sklearn.metrics.pairwise.pairwise_kernels], on
    an [X1] of [n_rows] rows: its input validation raises [ValueError] on an
    array without rows. *)
Definition pairwise_kernels (n_rows : nat) : M unit :=
  if n_rows =? 0 then lift (raise ValueError) else emit EvKernel.

(** The index array [query] returns: one-dimensional in greedy mode
    ([np.full([batch_size], ...)], line 419), two-dimensional in full mode,
    where [cand_idx_set] is indexed with the one-element array that
    [rand_argmax] returns (line 413). *)
Inductive index_array : Type :=
| Idx1 (v : list Z)
| Idx2 (rows : list (list Z)).

Section Query.

Variable check_cost_matrix : ndarray -> nat -> result unit.
Variable linalg_inv : matrix -> result matrix.

(** The integer an integer array holds where it was filled with NaN
    ([np.full(..., np.nan, dtype=int)]); it depends on the platform. *)
Variable nan_as_int : Z.

(** [K(X_cand, X_cand)], and the NaN-filled stand-in of line 367. *)
Variables (K_c_c sim_nan : matrix).

(** [np.argsort] of a row. *)
Variable argsort : list R -> list Z.

(** [rand_argmax([u], axis=1, random_state)]: a position of the maximum. *)
Variable rand_argmax : list R -> Z.

(** The collaborators of [nonmyopic_gain], fitted with the prior
    [self._prior_cand]. *)
Variable prob_cand_X : list R -> nat -> nat -> R.
Variable cond_prob : list R -> list Z -> list nat -> Z -> nat -> R.
Variable perf_delta : list R -> list Z -> list nat -> R.
Variable uninit : R.

(** Lines 468-476. *)
Definition _get_nonmyopic_cand_set (neighbors : string) (cand_idx : list Z)
    (sim_cand : matrix) (M : nat) : result (list (list Z)) :=
  if (neighbors =? "same")%string then
    inr (map (fun c => repeat c M) cand_idx)
  else if (neighbors =? "nearest")%string then
    (rows <- np_take sim_cand cand_idx ;;
     sub <- mapM (fun row => np_take row cand_idx) rows ;;
     inr (map (fun row => firstn M (argsort (map Ropp row))) sub))%py
  else raise ValueError.

(** [calculate_optimal_prior] on an array-like: [np.linalg.inv] rejects a
    1-D array. *)
Definition optimal_prior_of (cost_matrix : option ndarray) : result (list R) :=
  match cost_matrix with
  | None => calculate_optimal_prior linalg_inv None
  | Some (Arr2 m) => calculate_optimal_prior linalg_inv (Some m)
  | Some (Arr1 _) => raise LinAlgError
  end.

(** Lines 416-458: one pass of the greedy loop. The arrays [utilities] and
    [best_indices] are created anew at the top of every pass (lines 417-419),
    so the state [prev] left by the pass before is not read. *)
Definition greedy_step (self : XPAL) (n_cand n_lbld n_classes : nat)
    (X_eval_is_None : bool) (batch_size : nat) (sim_c_c : matrix)
    (_prior_cand : list R)
    (i_greedy : nat) (prev : option (list Z)) : M (option (list Z)) :=
  (let best_indices := np_full batch_size nan_as_int in
   let unlabeled_cand_idx :=
     setdiff1d (arange (Z.of_nat n_cand)) best_indices in
   sim_cand <- lift (rows <- np_take sim_c_c unlabeled_cand_idx ;;
                     mapM (fun row => np_take row unlabeled_cand_idx) rows)%py ;;
   cand_idx_set <- lift (_get_nonmyopic_cand_set self.(nonmyopic_neighbors)
                           unlabeled_cand_idx sim_cand
                           self.(nonmyopic_look_ahead)) ;;
   let cand_idx_set :=
     map (fun c => firstn i_greedy best_indices ++ c) cand_idx_set in
   emit (EvGain cand_idx_set) ;;;
   tmp_utilities <- lift (nonmyopic_gain n_cand n_lbld X_eval_is_None
                            (prob_cand_X _prior_cand) (cond_prob _prior_cand)
                            (perf_delta _prior_cand) uninit
                            cand_idx_set n_classes Nonmyopic
                            self.(nonmyopic_independence)
                            self.(all_sim_labels_equal)) ;;
   tmp_utilities <- lift (mapM np_max tmp_utilities) ;;
   let cur_best_idx := rand_argmax tmp_utilities in
   picked <- lift (py_nth unlabeled_cand_idx cur_best_idx) ;;
   best_indices <- lift (set_nth best_indices i_greedy picked) ;;
   retM (Some best_indices))%log.

(** Lines 318-466 of [XPAL.query], from the metric transform on.  [n_cand]
    is [len(X_cand)] and [n_lbld] is [len(X_)], the training instances kept
    by the masking of lines 350-356; the training set and [X_eval], when
    given, have rows.  An empty [X_cand] is rejected by the first kernel
    call (line 357). *)
Definition query (self : XPAL) (n_cand n_lbld n_classes : nat)
    (X_eval_is_None : bool) (batch_size : nat) : M index_array :=
  (tr <- lift (_transform_metric check_cost_matrix self.(metric)
                 self.(cost_vector) self.(cost_matrix)
                 self.(custom_perf_func) n_classes) ;;
   let cost_matrix := snd (fst tr) in
   emit EvPrior ;;;
   prior <- lift (optimal_prior_of cost_matrix) ;;
   let _prior_cand := vscale self.(prior_cand) prior in
   pairwise_kernels n_cand ;;;
   emit EvKernel ;;;
   (if X_eval_is_None then retM tt else emit EvKernel) ;;;
   sim_c_c <- (if (1 <? batch_size) || (1 <? self.(nonmyopic_look_ahead))
               then (emit EvKernel ;;; retM K_c_c)
               else retM sim_nan) ;;
   if (self.(batch_mode) =? "full")%string then
     if 1 <? self.(nonmyopic_look_ahead) then lift (raise NotImplementedError)
     else
       let cand_idx_set := permutations n_cand batch_size in
       emit (EvGain cand_idx_set) ;;;
       batch_utilities <- lift (nonmyopic_gain n_cand n_lbld X_eval_is_None
                                  (prob_cand_X _prior_cand)
                                  (cond_prob _prior_cand)
                                  (perf_delta _prior_cand) uninit
                                  cand_idx_set n_classes Batch
                                  self.(nonmyopic_independence)
                                  self.(all_sim_labels_equal)) ;;
       tmp_utilities <- lift (mapM np_max batch_utilities) ;;
       let cur_best_idx := rand_argmax tmp_utilities in
       best <- lift (py_nth cand_idx_set cur_best_idx) ;;
       retM (Idx2 [best])
   else if (self.(batch_mode) =? "greedy")%string then
     st <- forM (seq 0 batch_size)
             (greedy_step self n_cand n_lbld n_classes X_eval_is_None
                          batch_size sim_c_c _prior_cand)
             None ;;
     match st with
     | Some best_indices => retM (Idx1 best_indices)
     | None => lift (raise UnboundLocalError)
     end
   else lift (raise ValueError))%log.

End Query.

(** ** euler_beta, multinomial and _cost_reduction (lines 719-863) *)

(** [np.argmin]: the first position of the minimum. *)
Fixpoint argmin_from (i best_i : nat) (best : R) (v : list R) : nat :=
  match v with
  | [] => best_i
  | x :: v' =>
      if Rltb x best then argmin_from (S i) i x v'
      else argmin_from (S i) best_i best v'
  end.

Definition argmin (v : list R) : nat :=
  match v with
  | [] => 0
  | x :: v' => argmin_from 1 0 x v'
  end.

(** [itertools.product(a, b, c)]. *)
Definition product3 {A B C : Type} (a : list A) (b : list B) (c : list C)
  : list (A * B * C) :=
  flat_map (fun x => flat_map (fun y => map (fun z => (x, y, z)) c) b) a.

(** Consecutive chunks of [c] entries: the last axis of a [reshape]. *)
Fixpoint chunk_fuel {A : Type} (fuel c : nat) (l : list A) : list (list A) :=
  match fuel with
  | O => []
  | S f =>
      match l with
      | [] => []
      | _ => firstn c l :: chunk_fuel f c (skipn c l)
      end
  end.

Definition chunk {A : Type} (c : nat) (l : list A) : list (list A) :=
  chunk_fuel (length l) c l.

(** [flat.reshape(a, b, c)]. *)
Definition reshape3 (flat : list R) (a b c : nat) : list (list (list R)) :=
  chunk b (chunk c flat).

(** [max(x)] for the non-negative entries [np.bincount] accepts. *)
Definition max_int (x : list Z) : Z := fold_right Z.max 0%Z x.

(** [np.bincount(x, weights)]: entry [i] sums the weights at the positions
    where [x] is [i]; the result has [max(x) + 1] entries. *)
Definition bincount (x : list Z) (weights : list R) : list R :=
  map (fun i =>
         sum_R (map snd (filter (fun p => (fst p =? Z.of_nat i)%Z)
                                (combine x weights))))
      (seq 0 (Z.to_nat (max_int x + 1))).

(** [scipy.special.factorial] on an integer. *)
Definition factorial (n : Z) : R :=
  if (n <? 0)%Z then 0%R else INR (fact (Z.to_nat n)).

(** The [prior] argument: a float or an array of [n_classes] floats. *)
Inductive prior_arg : Type :=
| PriorScalar (p : R)
| PriorArray (v : list R).

Section CostReduction.

(** [scipy.special.gammaln]. *)
Variable gammaln : R -> R.

Definition euler_beta_row (a : list R) : R :=
  exp (sum_R (map gammaln a) - gammaln (sum_R a)).

Definition euler_beta (a : matrix) : list R := map euler_beta_row a.

Definition multinomial_row (a : list Z) : R :=
  (factorial (sum_int a) / prod_R (map factorial a))%R.

Definition multinomial (a : list (list Z)) : list R := map multinomial_row a.

Definition _cost_reduction (k_vec_list : matrix) (C : option matrix)
    (m_max : nat) (prior : prior_arg) : result (list R) :=
  match k_vec_list with
  | [] => raise IndexError
  | k0 :: _ =>
      let n_classes := length k0 in
      let n_samples := length k_vec_list in
      let C := match C with
               | None => map (map (fun x => 1 - x)%R) (eye n_classes)
               | Some C => C
               end in
      let l_vec_list :=
        flat_map (fun m => _gen_l_vec_list (Z.of_nat m) n_classes)
                 (seq 0 (m_max + 1)) in
      let m_list := map sum_int l_vec_list in
      let n_l_vecs := length l_vec_list in
      let k_l_vec_list :=
        map (fun k => map (fun l => vadd k (map IZR l)) l_vec_list)
            k_vec_list in
      (* [k_l_vec_list @ C], line 757: [C] has [n_classes] rows. *)
      if negb (length C =? n_classes) then raise ValueError else
      let y_hats := map (map (fun kl => argmin (vecmat kl C))) k_l_vec_list in
      let prior :=
        match prior with
        | PriorScalar p => vscale p (np_ones n_classes)
        | PriorArray v => vmul v (np_ones n_classes)
        end in
      let k_vec_list := map (fun k => vadd k prior) k_vec_list in
      let combs := product3 k_vec_list l_vec_list (eye n_classes) in
      let combs :=
        map (fun elem =>
               vadd (vadd (fst (fst elem)) (map IZR (snd (fst elem))))
                    (snd elem))
            combs in
      let factor_1 := map (fun b => 1 / b)%R (euler_beta k_vec_list) in
      let factor_2 := multinomial l_vec_list in
      let factor_3 :=
        reshape3 (euler_beta combs) n_samples n_l_vecs n_classes in
      let m_sums :=
        map (fun k_idx =>
               vscale (nth k_idx factor_1 0%R)
                 (bincount m_list
                    (vmul factor_2
                       (map (fun l_idx =>
                               dot (column C (nth l_idx (nth k_idx y_hats []) 0))
                                   (nth l_idx (nth k_idx factor_3 []) []))
                            (seq 0 n_l_vecs)))))
            (seq 0 n_samples) in
      let gains :=
        map (fun row => map (fun z => z + nth 0 row 0)%R (np_zeros m_max))
            m_sums in
      let gains := map2 (map2 Rminus) gains (map (skipn 1) m_sums) in
      let gains :=
        map (fun row => map2 Rdiv row (map INR (seq 1 m_max))) gains in
      mapM np_max gains
  end.

(** The unit vector [e_j] of length [n]. *)
Definition unit_vector (n j : nat) : list R :=
  map (fun i => if i =? j then 1%R else 0%R) (seq 0 n).





End CostReduction.






(** The x86-64 value of a NaN cast to [int64]. *)
Definition int64_min : Z := (- 2 ^ 63)%Z.

(** Stand-ins for the collaborators in examples: every cost matrix passes
    the check, [argsort] of a row without ties in increasing order, the first
    maximum wins the tie-break, uniform estimates and a unit performance
    delta. *)
Definition check_any (cm : ndarray) (n : nat) : result unit := inr tt.
Definition argsort_sorted (row : list R) : list Z := arange (Z.of_nat (length row)).
Definition argmax_first (u : list R) : Z := 0%Z.
Definition prob_half (prior : list R) (i c : nat) : R := (1 / 2)%R.
Definition cond_half (prior : list R) (hist : list Z) (labels : list nat)
    (i : Z) (c : nat) : R := (1 / 2)%R.
Definition delta_one (prior : list R) (cand_idx : list Z) (y_sim : list nat) : R := 1%R.

(** An [XPAL] with the constructor defaults, up to the batch mode, the
    look-ahead and the neighbour mode. *)
Definition xpal_default (mode : string) (look_ahead : nat) (neighbors : string)
  : XPAL :=
  {| metric := "error";
     cost_vector := None;
     cost_matrix := None;
     custom_perf_func := None;
     prior_cand := (1 / 1000)%R;
     prior_eval := (1 / 1000)%R;
     batch_mode := mode;
     all_sim_labels_equal := true;
     nonmyopic_look_ahead := look_ahead;
     nonmyopic_neighbors := neighbors;
     nonmyopic_independence := true |}.

(** Splits an equation between explicit (nested) lists into its entries. *)
Ltac list_eq :=
  repeat (apply (f_equal2 (@cons _))); try reflexivity.

(** The label vectors of all depths, as line 748 stacks them. *)
Definition l_vecs (n m_max : nat) : list (list Z) :=
  flat_map (fun m => _gen_l_vec_list (Z.of_nat m) n) (seq 0 (m_max + 1)).

(** The prior as a vector, and the cost matrix with its default (the error
    metric when absent), as [_cost_reduction] resolves them. *)
Definition prior_vector (prior : prior_arg) (n : nat) : list R :=
  match prior with
  | PriorScalar p => repeat p n
  | PriorArray v => v
  end.

Definition cost_or_default (C : option matrix) (n : nat) : matrix :=
  match C with
  | None => map (map (fun x => 1 - x)%R) (eye n)
  | Some C => C
  end.

(** Proof devices for the loops of [nonmyopic_gain]: [M[i] = row], and a row
    divided [t] times by its depths [1, 2, ...]. *)
Definition upd_row (tmp : matrix) (i : nat) (row : list R) : matrix :=
  firstn i tmp ++ row :: skipn (S i) tmp.

Definition div_pow (t : nat) (row : list R) : list R :=
  map2 (fun x d => (x / INR d ^ t)%R) row (seq 1 (length row)).

(** The chain rule over an ordered subset, as the spec words it (section
    4.5, step 3): the product, over the positions [i], of the estimate for
    instance [i] given the instances before it with their hypothetical
    labels. *)
Definition chain_rule_prob (cond_prob : list Z -> list nat -> Z -> nat -> R)
    (cand_idx : list Z) (y_sim : list nat) : R :=
  prod_R (map (fun i => cond_prob (firstn i cand_idx) (firstn i y_sim)
                                  (nth i cand_idx 0%Z) (nth i y_sim 0))
              (seq 0 (length y_sim))).

(** An [XPAL] with the constructor defaults and the given metric. *)
Definition xpal_with_metric (m : string) : XPAL :=
  {| metric := m;
     cost_vector := None;
     cost_matrix := None;
     custom_perf_func := None;
     prior_cand := (1 / 1000)%R;
     prior_eval := (1 / 1000)%R;
     batch_mode := "greedy";
     all_sim_labels_equal := true;
     nonmyopic_look_ahead := 1;
     nonmyopic_neighbors := "nearest";
     nonmyopic_independence := true |}.

(** The error matrix (spec, section 4.2): zero on the diagonal, one off it;
    and the matrix of ordinal distances [|i - j|]. *)
Definition error_cost_matrix (n : nat) : matrix :=
  map (fun i => map (fun j => if j =? i then 0%R else 1%R) (seq 0 n)) (seq 0 n).

Definition ordinal_cost_matrix (n : nat) : matrix :=
  map (fun i => map (fun j => Rabs (INR i - INR j)) (seq 0 n)) (seq 0 n).

(** The metric names [_transform_metric] knows. *)
Definition known_metrics : list string :=
  ["error"; "cost-vector"; "misclassification-loss"; "mean-abs-error";
   "macro-accuracy"; "f1-score"; "cohens-kappa"]%string.

(** ** _dperf (lines 658-675) *)

(** Boolean-mask indexing [a[mask]] along the first axis: the mask has the
    length of the axis, or [IndexError] is raised. *)
Definition np_mask {A : Type} (mask : list bool) (l : list A)
  : result (list A) :=
  if length mask =? length l
  then inr (map snd (filter fst (combine mask l)))
  else raise IndexError.

(** [np.sum(rows, axis=0)] for rows of [n] entries. *)
Definition sum_axis0 (n : nat) (rows : matrix) : list R :=
  fold_right vadd (np_zeros n) rows.

(** [conf[:, y] += v]. *)
Definition add_to_column (conf : matrix) (y : nat) (v : list R) : matrix :=
  map2 (fun row x =>
          firstn y row ++ match skipn y row with
                          | [] => []
                          | c :: t => (c + x)%R :: t
                          end)
       conf v.

(** [pred == y_pred]. *)
Definition pred_is (pred : list Z) (y_pred : nat) : list bool :=
  map (fun p => (p =? Z.of_nat y_pred)%Z) pred.

(** [pred_new != pred_old] on arrays of one length.  Arrays of two lengths
    do not compare elementwise: with a length of one the comparison
    broadcasts and the mask then fits neither [pred_old] nor [pred_new]
    ([IndexError] at the first use); otherwise the shapes do not broadcast
    ([ValueError]). *)
Definition np_not_equal (pred_new pred_old : list Z) : result (list bool) :=
  if length pred_new =? length pred_old
  then inr (map2 (fun n o => negb (n =? o)%Z) pred_new pred_old)
  else if (length pred_new =? 1) || (length pred_old =? 1)
       then raise IndexError
       else raise ValueError.

(** [A * B] on two-dimensional arrays with the same number of rows and
    widths [wa] and [wb]: a width of one is broadcast, other unequal widths
    raise [ValueError]. *)
Definition np_multiply (wa wb : nat) (A B : matrix) : result matrix :=
  if wa =? wb then inr (mat_map2 Rmult A B)
  else if wa =? 1
       then inr (map2 (fun a b => map (Rmult (hd 0%R a)) b) A B)
       else if wb =? 1
            then inr (map2 (fun a b => map (fun x => (x * hd 0%R b)%R) a) A B)
            else raise ValueError.

(** Lines 669-674: the probability-weighted confusion matrices of the old
    and the new predictions, built column by column. *)
Definition confusion_matrices (probs : matrix) (pred_old pred_new : list Z)
  : result (matrix * matrix) :=
  let n_classes := ncols probs in
  let conf_mat_old := np_full n_classes (np_zeros n_classes) in
  let conf_mat_new := np_full n_classes (np_zeros n_classes) in
  fold_left
    (fun acc y_pred =>
       (conf <- acc ;;
        rows_old <- np_mask (pred_is pred_old y_pred) probs ;;
        rows_new <- np_mask (pred_is pred_new y_pred) probs ;;
        inr (add_to_column (fst conf) y_pred (sum_axis0 n_classes rows_old),
             add_to_column (snd conf) y_pred (sum_axis0 n_classes rows_new)))%py)
    (seq 0 n_classes) (inr (conf_mat_old, conf_mat_new)).

(** [_dperf], called with a cost matrix when [decomposable] and with a
    performance function otherwise (lines 522 and 569-572). *)
Definition _dperf (probs : matrix) (pred_old pred_new : list Z)
    (decomposable : bool) (cost_matrix : matrix) (perf_func : perf_fn)
  : result R :=
  if decomposable then
    (pred_changed <- np_not_equal pred_new pred_old ;;
     probs_changed <- np_mask pred_changed probs ;;
     idx_old <- np_mask pred_changed pred_old ;;
     rows_old <- np_take (transpose cost_matrix) idx_old ;;
     idx_new <- np_mask pred_changed pred_new ;;
     rows_new <- np_take (transpose cost_matrix) idx_new ;;
     weighted <- np_multiply (ncols probs) (length cost_matrix)
                   probs_changed (mat_map2 Rminus rows_old rows_new) ;;
     inr (sum_R (concat weighted) / INR (length probs))%R)%py
  else
    (conf <- confusion_matrices probs pred_old pred_new ;;
     inr (perf_func (snd conf) - perf_func (fst conf))%R)%py.

(** The expected cost of predicting class [y] for an instance with class
    probabilities [p], and the mean change of it over an evaluation set. *)
Definition expected_cost_of (C : matrix) (p : list R) (y : Z) : R :=
  dot p (column C (Z.to_nat y)).

Definition mean_cost_change (C : matrix) (probs : matrix)
    (pred_old pred_new : list Z) : R :=
  (sum_R (map2 (fun p on => expected_cost_of C p (fst on)
                            - expected_cost_of C p (snd on))%R
               probs (combine pred_old pred_new))
   / INR (length probs))%R.

(** Entry [(c, y)] of a probability-weighted confusion matrix: the
    probability mass of class [c] over the instances predicted as [y]. *)
Definition confusion_entry (probs : matrix) (pred : list Z) (c y : nat) : R :=
  sum_R (map2 (fun p yp => if (yp =? Z.of_nat y)%Z then nth c p 0%R else 0%R)
              probs pred).

Definition confusion_of (probs : matrix) (pred : list Z) : matrix :=
  map (fun c => map (confusion_entry probs pred c) (seq 0 (ncols probs)))
      (seq 0 (ncols probs)).

(** ** _cost_reduction over IEEE doubles

    Lines 719-790 and 830-863 once more, on binary64 numbers with their
    rounding, infinities and NaN.  [scipy.special.gammaln], [np.exp] and
    [scipy.special.factorial] are parameters. *)

Module Float64.

(** An integer array entry as a double. *)
Definition of_Z (z : Z) : float :=
  match z with
  | Z0 => 0%float
  | Zpos _ => PrimFloat.of_uint63 (Uint63.of_Z z)
  | Zneg p => (- PrimFloat.of_uint63 (Uint63.of_Z (Zpos p)))%float
  end.

(** [np.sum] and [np.prod] of a short array: a running sum or product. *)
Definition sum (v : list float) : float := fold_left PrimFloat.add v 0%float.
Definition prod (v : list float) : float := fold_left PrimFloat.mul v 1%float.

Definition vadd (u v : list float) : list float := map2 PrimFloat.add u v.
Definition vmul (u v : list float) : list float := map2 PrimFloat.mul u v.
Definition vscale (c : float) (v : list float) : list float :=
  map (PrimFloat.mul c) v.
Definition dot (u v : list float) : float := sum (vmul u v).

Definition np_zeros (n : nat) : list float := repeat 0%float n.
Definition np_ones (n : nat) : list float := repeat 1%float n.

Definition eye (n : nat) : list (list float) :=
  map (fun i => map (fun j => if (i =? j)%nat then 1%float else 0%float)
                    (seq 0 n))
      (seq 0 n).

Definition ncols (A : list (list float)) : nat := length (hd [] A).
Definition column (A : list (list float)) (j : nat) : list float :=
  map (fun row => nth j row 0%float) A.

(** [v @ A]. *)
Definition vecmat (v : list float) (A : list (list float)) : list float :=
  map (fun j => dot v (column A j)) (seq 0 (ncols A)).

(** [np.argmin]: the first minimum, a NaN counting as the minimum. *)
Fixpoint argmin_from (i best : nat) (b : float) (v : list float) : nat :=
  match v with
  | [] => best
  | x :: v' =>
      if (x <? b)%float || (PrimFloat.is_nan x && negb (PrimFloat.is_nan b))
      then argmin_from (S i) i x v'
      else argmin_from (S i) best b v'
  end.

Definition argmin (v : list float) : nat :=
  match v with
  | [] => 0
  | x :: v' => argmin_from 1 0 x v'
  end.

(** [np.max] of a row: a NaN propagates; a zero-size row raises
    [ValueError]. *)
Definition fmax (a b : float) : float :=
  if PrimFloat.is_nan a then a
  else if PrimFloat.is_nan b then b
  else if (a <? b)%float then b else a.

Definition np_max (row : list float) : result float :=
  match row with
  | [] => raise ValueError
  | x :: rest => inr (fold_left fmax rest x)
  end.

(** [np.bincount(x, weights)]. *)
Definition bincount (x : list Z) (weights : list float) : list float :=
  map (fun i =>
         sum (map snd (filter (fun p => (fst p =? Z.of_nat i)%Z)
                              (combine x weights))))
      (seq 0 (Z.to_nat (max_int x + 1))).

Inductive prior_arg : Type :=
| PriorScalar (p : float)
| PriorArray (v : list float).

Section CostReduction.

Variable gammaln : float -> float.
Variable np_exp : float -> float.
Variable factorial : Z -> float.

Definition euler_beta_row (a : list float) : float :=
  np_exp (sum (map gammaln a) - gammaln (sum a))%float.

Definition euler_beta (a : list (list float)) : list float :=
  map euler_beta_row a.

Definition multinomial_row (a : list Z) : float :=
  (factorial (sum_int a) / prod (map factorial a))%float.

Definition multinomial (a : list (list Z)) : list float :=
  map multinomial_row a.

Definition _cost_reduction (k_vec_list : list (list float))
    (C : option (list (list float))) (m_max : nat) (prior : prior_arg)
  : result (list float) :=
  match k_vec_list with
  | [] => raise IndexError
  | k0 :: _ =>
      let n_classes := length k0 in
      let n_samples := length k_vec_list in
      let C := match C with
               | None => map (map (fun x => 1 - x)%float) (eye n_classes)
               | Some C => C
               end in
      let l_vec_list :=
        flat_map (fun m => _gen_l_vec_list (Z.of_nat m) n_classes)
                 (seq 0 (m_max + 1)) in
      let m_list := map sum_int l_vec_list in
      let n_l_vecs := length l_vec_list in
      let k_l_vec_list :=
        map (fun k => map (fun l => vadd k (map of_Z l)) l_vec_list)
            k_vec_list in
      if negb (length C =? n_classes) then raise ValueError else
      let y_hats := map (map (fun kl => argmin (vecmat kl C))) k_l_vec_list in
      let prior :=
        match prior with
        | PriorScalar p => vscale p (np_ones n_classes)
        | PriorArray v => vmul v (np_ones n_classes)
        end in
      let k_vec_list := map (fun k => vadd k prior) k_vec_list in
      let combs := product3 k_vec_list l_vec_list (eye n_classes) in
      let combs :=
        map (fun elem =>
               vadd (vadd (fst (fst elem)) (map of_Z (snd (fst elem))))
                    (snd elem))
            combs in
      let factor_1 := map (fun b => 1 / b)%float (euler_beta k_vec_list) in
      let factor_2 := multinomial l_vec_list in
      let factor_3 := chunk n_l_vecs (chunk n_classes (euler_beta combs)) in
      let m_sums :=
        map (fun k_idx =>
               vscale (nth k_idx factor_1 0%float)
                 (bincount m_list
                    (vmul factor_2
                       (map (fun l_idx =>
                               dot (column C (nth l_idx (nth k_idx y_hats []) 0))
                                   (nth l_idx (nth k_idx factor_3 []) []))
                            (seq 0 n_l_vecs)))))
            (seq 0 n_samples) in
      let gains :=
        map (fun row => map (fun z => z + nth 0 row 0)%float (np_zeros m_max))
            m_sums in
      let gains := map2 (map2 PrimFloat.sub) gains (map (skipn 1) m_sums) in
      let gains :=
        map (fun row =>
               map2 PrimFloat.div row
                    (map (fun d => of_Z (Z.of_nat d)) (seq 1 m_max)))
            gains in
      mapM np_max gains
  end.

End CostReduction.



(** The same at the arguments of the run on [k = [5, 5]]: [ln Gamma] at
    6, 7, 8, 12, 13 and 14, and [exp] at the four differences. *)
Definition gammaln_at_5 (x : float) : float :=
  if (x =? 6)%float then 0x1.326643c4479cap+2%float
  else if (x =? 7)%float then 0x1.a51273acf01cbp+2%float
  else if (x =? 8)%float then 0x1.10ce1f32dcc30p+3%float
  else if (x =? 12)%float then 0x1.180973f3a8d74p+4%float
  else if (x =? 13)%float then 0x1.3fcba16d50143p+4%float
  else if (x =? 14)%float then 0x1.68d5a9c3b32cdp+4%float
  else 0%float.

Definition exp_at_5 (x : float) : float :=
  if (x =? -0x1.fb5948461423cp+2)%float then 0x1.7a463005e9191p-12%float
  else if (x =? -0x1.13dae722044bcp+3)%float then 0x1.7a463005e919cp-13%float
  else if (x =? -0x1.27aa127265c85p+3)%float then 0x1.975f4768d3a5dp-14%float
  else if (x =? -0x1.2c98dfda763cfp+3)%float then 0x1.5d2d18a2fe8e9p-14%float
  else 1%float.

(** [factorial] on small arguments, where the double is exact. *)
Definition factorial_small (n : Z) : float :=
  of_Z (Z.of_nat (fact (Z.to_nat n))).

End Float64.

(** * Part II: properties *)

(** ** Label vectors *)

Lemma binom_n_0 n : binom n 0 = 1.
Proof. destruct n; reflexivity. Qed.

Lemma binom_pascal n k : binom (S n) (S k) = binom n k + binom n (S k).
Proof. reflexivity. Qed.

Lemma binom_small n k : n < k -> binom n k = 0.
Proof.
  revert k; induction n as [|n IH]; intros [|k] H; try lia; simpl; auto.
  rewrite !IH by lia. reflexivity.
Qed.

(** [binom] is the usual coefficient: C(n+k, k) * n! * k! = (n+k)!. *)
Lemma binom_fact n k : binom (n + k) k * (fact n * fact k) = fact (n + k).
Proof.
  revert k; induction n as [|n IHn]; intros k.
  - simpl. induction k as [|k IHk]; [reflexivity|].
    change (0 + S k) with (S (0 + k)). rewrite binom_pascal.
    simpl (0 + k) in *. rewrite (binom_small (n:=k) (k:=S k)) by lia.
    simpl fact in *. nia.
  - induction k as [|k IHk].
    + rewrite binom_n_0, Nat.add_0_r. simpl fact. lia.
    + replace (S n + S k) with (S (S n + k)) by lia.
      rewrite binom_pascal.
      specialize (IHn (S k)).
      replace (n + S k) with (S n + k) in IHn by lia.
      change (fact (S (S n + k))) with (S (S n + k) * fact (S n + k)).
      change (fact (S n)) with (S n * fact n) in *.
      change (fact (S k)) with (S k * fact k) in *.
      nia.
Qed.

Lemma filter_le_seq r n :
  filter (fun x => x <=? r) (seq 0 n) = seq 0 (Nat.min n (S r)).
Proof.
  induction n as [|n IH]; [reflexivity|].
  rewrite seq_S, filter_app, IH. cbn [filter Nat.add].
  destruct (Nat.leb_spec n r).
  - rewrite !Nat.min_l by lia. rewrite seq_S. reflexivity.
  - rewrite !Nat.min_r by lia. rewrite app_nil_r. reflexivity.
Qed.

Lemma filter_map_comm {A B} (f : B -> bool) (g : A -> B) l :
  filter f (map g l) = map g (filter (fun x => f (g x)) l).
Proof.
  induction l as [|a l IH]; simpl; [reflexivity|].
  rewrite IH. destruct (f (g a)); reflexivity.
Qed.

(** The mask of line 816 keeps exactly [0 .. r] when [0 <= r <= m]. *)
Lemma mask_keeps_prefix (m s : Z) :
  (0 <= m - s <= m)%Z ->
  filter (fun x => (x - (m - s) <=? 0)%Z) (arange (m + 1))
  = map Z.of_nat (seq 0 (S (Z.to_nat (m - s)))).
Proof.
  intros H. unfold arange. rewrite filter_map_comm.
  rewrite (filter_ext _ (fun x => x <=? Z.to_nat (m - s))).
  - rewrite filter_le_seq. f_equal. f_equal. lia.
  - intros x. destruct (Nat.leb_spec x (Z.to_nat (m - s)));
      [apply Z.leb_le | apply Z.leb_gt]; lia.
Qed.

Lemma sum_int_app l1 l2 : sum_int (l1 ++ l2) = (sum_int l1 + sum_int l2)%Z.
Proof. induction l1 as [|a l1 IH]; simpl; lia. Qed.

Lemma flat_map_map {A B C} (f : B -> list C) (g : A -> B) l :
  flat_map f (map g l) = flat_map (fun x => f (g x)) l.
Proof. induction l as [|a l IH]; simpl; [|rewrite IH]; reflexivity. Qed.

Lemma map_flat_map {A B C} (f : B -> C) (g : A -> list B) l :
  map f (flat_map g l) = flat_map (fun x => map f (g x)) l.
Proof.
  induction l as [|a l IH]; simpl; [reflexivity|].
  rewrite map_app, IH. reflexivity.
Qed.

Lemma flat_map_flat_map {A B C} (f : B -> list C) (g : A -> list B) l :
  flat_map f (flat_map g l) = flat_map (fun x => flat_map f (g x)) l.
Proof.
  induction l as [|a l IH]; simpl; [reflexivity|].
  rewrite flat_map_app, IH. reflexivity.
Qed.

Lemma flat_map_ext_in {A B} (f g : A -> list B) l :
  (forall x, In x l -> f x = g x) -> flat_map f l = flat_map g l.
Proof.
  induction l as [|a l IH]; simpl; intros H; [reflexivity|].
  rewrite H by auto. rewrite IH by auto. reflexivity.
Qed.

(** Membership in [bounded_vecs]. *)
Lemma bounded_vecs_In i : forall r v,
  In v (bounded_vecs i r) <->
  length v = i /\ Forall (fun x => (0 <= x)%Z) v /\ (sum_int v <= Z.of_nat r)%Z.
Proof.
  induction i as [|i IH]; intros r v; cbn [bounded_vecs].
  - split.
    + intros [<-|[]]. simpl. repeat split; [constructor | lia].
    + intros (Hl & _ & _). destruct v; [left; reflexivity | discriminate].
  - rewrite in_flat_map. split.
    + intros (x & Hx & Hv). apply in_map_iff in Hv as (w & <- & Hw).
      apply IH in Hw as (Hl & Hpos & Hs). apply in_seq in Hx.
      simpl. repeat split; [congruence | constructor; [lia | assumption] | lia].
    + intros (Hl & Hpos & Hs). destruct v as [|a w]; [discriminate|].
      inversion Hpos as [|? ? Ha Hw]; subst. simpl in Hs, Hl.
      assert (Hsw : (0 <= sum_int w)%Z).
      { clear - Hw. induction Hw; simpl; lia. }
      exists (Z.to_nat a). split; [apply in_seq; lia|].
      apply in_map_iff. exists w. split; [f_equal; lia|].
      apply IH. repeat split; [congruence | assumption | lia].
Qed.

Lemma sum_int_nonneg v : Forall (fun x => (0 <= x)%Z) v -> (0 <= sum_int v)%Z.
Proof. induction 1; simpl; lia. Qed.

Lemma NoDup_map_inj {A B} (f : A -> B) l :
  (forall x y, In x l -> In y l -> f x = f y -> x = y) ->
  NoDup l -> NoDup (map f l).
Proof.
  induction l as [|a l IH]; simpl; intros Hinj Hnd; [constructor|].
  inversion Hnd as [|? ? Ha Hl]; subst. constructor.
  - intros Hin. apply in_map_iff in Hin as (b & Hb & Hbl).
    apply Hinj in Hb; auto. subst b. contradiction.
  - apply IH; auto.
Qed.

Lemma bounded_vecs_NoDup i : forall r, NoDup (bounded_vecs i r).
Proof.
  induction i as [|i IH]; intros r; cbn [bounded_vecs].
  - constructor; [intros [] | constructor].
  - generalize (seq_NoDup (S r) 0).
    assert (Hgen : forall xs, NoDup xs ->
      NoDup (flat_map (fun x => map (cons (Z.of_nat x)) (bounded_vecs i (r - x))) xs)).
    { induction xs as [|x xs IHxs]; intros Hnd; simpl; [constructor|].
      inversion Hnd as [|? ? Hx Hxs]; subst.
      apply NoDup_app.
      - apply NoDup_map_inj; [|apply IH].
        intros a b _ _ Hab. congruence.
      - apply IHxs, Hxs.
      - intros v Hv Hv'. apply in_map_iff in Hv as (w & <- & _).
        apply in_flat_map in Hv' as (y & Hy & Hv').
        apply in_map_iff in Hv' as (w' & Heq & _).
        injection Heq as Hxy _. apply Nat2Z.inj in Hxy. subst y. contradiction. }
    apply Hgen.
Qed.

(** Hockey-stick identity, in the shape the count needs. *)
Lemma hockey_stick i r :
  list_sum (map (fun x => binom (r - x + i) i) (seq 0 (S r)))
  = binom (r + S i) (S i).
Proof.
  induction r as [|r IH].
  - simpl. rewrite Nat.add_0_r, (binom_small (n:=i) (k:=S i)) by lia. lia.
  - change (seq 0 (S (S r))) with (0 :: seq 1 (S r)).
    rewrite <- seq_shift, map_cons, map_map.
    rewrite (map_ext _ (fun x => binom (r - x + i) i)) by reflexivity.
    unfold list_sum in *. cbn [fold_right].
    rewrite IH. replace (S r + S i) with (S (S r + i)) by lia.
    rewrite binom_pascal. replace (r + S i) with (S r + i) by lia.
    rewrite Nat.sub_0_r. reflexivity.
Qed.

Lemma bounded_vecs_length i : forall r,
  length (bounded_vecs i r) = binom (r + i) i.
Proof.
  induction i as [|i IH]; intros r; cbn [bounded_vecs].
  - rewrite binom_n_0. reflexivity.
  - rewrite length_flat_map.
    rewrite (map_ext _ (fun x => binom (r - x + i) i)).
    + apply hockey_stick.
    + intros x. rewrite length_map. apply IH.
Qed.

(** After [i] passes the loop holds, for every vector it started from, all
    its extensions by [i] non-negative entries that keep the sum within
    [m_approx]. *)
Lemma for_range_extend m i : forall L,
  (forall v, In v L -> Forall (fun x => (0 <= x)%Z) v /\ (sum_int v <= m)%Z) ->
  for_range i (extend_label_vecs m) L
  = flat_map (fun v => map (app v) (bounded_vecs i (Z.to_nat (m - sum_int v)))) L.
Proof.
  induction i as [|i IH]; intros L HL; cbn [for_range bounded_vecs].
  - induction L as [|v L IHL]; [reflexivity|].
    simpl. rewrite app_nil_r. f_equal. apply IHL. intros; apply HL; right; auto.
  - rewrite IH.
    + unfold extend_label_vecs. rewrite flat_map_flat_map.
      apply flat_map_ext_in. intros v Hv.
      destruct (HL v Hv) as [Hpos Hsum].
      pose proof (sum_int_nonneg Hpos) as Hnn.
      rewrite mask_keeps_prefix by lia.
      rewrite !flat_map_map, map_flat_map.
      apply flat_map_ext_in. intros x Hx. apply in_seq in Hx.
      rewrite sum_int_app. simpl sum_int.
      replace (Z.to_nat (m - (sum_int v + (Z.of_nat x + 0))))
        with (Z.to_nat (m - sum_int v) - x) by lia.
      rewrite map_map. apply map_ext. intros w.
      rewrite <- app_assoc. reflexivity.
    + intros w Hw. unfold extend_label_vecs in Hw.
      apply in_flat_map in Hw as (v & Hv & Hw).
      apply in_map_iff in Hw as (x & <- & Hx).
      apply filter_In in Hx as [Hx Hle].
      destruct (HL v Hv) as [Hpos Hsum].
      unfold arange in Hx. apply in_map_iff in Hx as (k & <- & _).
      apply Z.leb_le in Hle. split.
      * apply Forall_app. split; [assumption|]. constructor; [lia | constructor].
      * rewrite sum_int_app. simpl. lia.
Qed.

(** The enumeration, as a map over the front-built prefixes. *)
Lemma gen_l_vec_list_unfold m n :
  (0 <= m)%Z ->
  _gen_l_vec_list m n
  = map (fun v => v ++ [(m - sum_int v)%Z]) (bounded_vecs (n - 1) (Z.to_nat m)).
Proof.
  intros Hm. unfold _gen_l_vec_list. rewrite for_range_extend.
  - simpl. rewrite app_nil_r, Z.sub_0_r.
    rewrite map_map. reflexivity.
  - intros v [<-|[]]. split; [constructor | simpl; lia].
Qed.

Lemma gen_l_vec_list_In m n l :
  (0 <= m)%Z -> 1 <= n ->
  In l (_gen_l_vec_list m n) <-> is_label_vector n m l.
Proof.
  intros Hm Hn. rewrite gen_l_vec_list_unfold by assumption.
  unfold is_label_vector. rewrite in_map_iff. split.
  - intros (v & <- & Hv). apply bounded_vecs_In in Hv as (Hl & Hpos & Hs).
    rewrite length_app, sum_int_app. simpl. repeat split; try lia.
    apply Forall_app. split; [assumption|]. constructor; [lia | constructor].
  - intros (Hl & Hpos & Hs).
    destruct (exists_last (l:=l)) as (v & a & ->).
    { intros ->. simpl in Hl. lia. }
    rewrite length_app in Hl. simpl in Hl.
    rewrite sum_int_app in Hs. simpl in Hs.
    apply Forall_app in Hpos as [Hv Ha]. inversion Ha; subst.
    exists v. split; [do 2 f_equal; lia|].
    apply bounded_vecs_In. repeat split; [lia | assumption | lia].
Qed.

Lemma gen_l_vec_list_NoDup m n : (0 <= m)%Z -> NoDup (_gen_l_vec_list m n).
Proof.
  intros Hm. rewrite gen_l_vec_list_unfold by assumption.
  apply NoDup_map_inj; [|apply bounded_vecs_NoDup].
  intros v w _ _ H. apply app_inj_tail in H. tauto.
Qed.

Lemma gen_l_vec_list_length m n :
  (0 <= m)%Z -> 1 <= n ->
  length (_gen_l_vec_list m n) = binom (Z.to_nat m + n - 1) (n - 1).
Proof.
  intros Hm Hn. rewrite gen_l_vec_list_unfold by assumption.
  rewrite length_map, bounded_vecs_length. f_equal. lia.
Qed.

(** C4. For [m >= 0] and [n_classes >= 1], [_gen_l_vec_list m n_classes]
    returns exactly C(m + n_classes - 1, n_classes - 1) vectors, each of
    length [n_classes], with non-negative integer entries that sum to [m],
    and no vector occurs twice. *)
Theorem gen_l_vec_list_enumerates (m : Z) (n_classes : nat) :
  (0 <= m)%Z -> 1 <= n_classes ->
  length (_gen_l_vec_list m n_classes)
  = binom (Z.to_nat m + n_classes - 1) (n_classes - 1)
  /\ Forall (fun l => length l = n_classes
                      /\ Forall (fun x => (0 <= x)%Z) l
                      /\ sum_int l = m)
            (_gen_l_vec_list m n_classes)
  /\ NoDup (_gen_l_vec_list m n_classes).
Proof.
  intros Hm Hn. split; [|split].
  - apply gen_l_vec_list_length; assumption.
  - apply Forall_forall. intros l Hl.
    apply (gen_l_vec_list_In l Hm Hn) in Hl. exact Hl.
  - apply gen_l_vec_list_NoDup; assumption.
Qed.

(** The enumeration at [m = 2], [n_classes = 3]: six vectors. *)
Lemma gen_l_vec_list_enumerates_witness :
  length (_gen_l_vec_list 2 3) = binom (Z.to_nat 2 + 3 - 1) (3 - 1)
  /\ Forall (fun l => length l = 3
                      /\ Forall (fun x => (0 <= x)%Z) l
                      /\ sum_int l = 2%Z)
            (_gen_l_vec_list 2 3)
  /\ NoDup (_gen_l_vec_list 2 3).
Proof.
  apply (@gen_l_vec_list_enumerates 2 3); [lia | lia].
Defined.

Example gen_l_vec_list_2_3 :
  _gen_l_vec_list 2 3
  = [[0; 0; 2]; [0; 1; 1]; [0; 2; 0]; [1; 0; 1]; [1; 1; 0]; [2; 0; 0]]%Z.
Proof. reflexivity. Qed.

(** ** Vectors and matrices *)

Lemma length_map2 {A B C} (f : A -> B -> C) l1 : forall l2,
  length (map2 f l1 l2) = Nat.min (length l1) (length l2).
Proof.
  induction l1 as [|a l1 IH]; intros [|b l2]; simpl; auto.
Qed.

Lemma length_vadd u v : length (vadd u v) = Nat.min (length u) (length v).
Proof. apply length_map2. Qed.

Lemma length_vscale c v : length (vscale c v) = length v.
Proof. apply length_map. Qed.

Lemma length_np_zeros n : length (np_zeros n) = n.
Proof. apply repeat_length. Qed.

Lemma vadd_zeros_l v : vadd (np_zeros (length v)) v = v.
Proof.
  unfold np_zeros, vadd.
  induction v as [|x v IH]; simpl; [reflexivity|].
  rewrite Rplus_0_l. f_equal. exact IH.
Qed.

Lemma vadd_zeros_zeros n : vadd (np_zeros n) (np_zeros n) = np_zeros n.
Proof.
  pose proof (vadd_zeros_l (np_zeros n)) as H.
  rewrite length_np_zeros in H. exact H.
Qed.

Lemma vscale_zeros c n : vscale c (np_zeros n) = np_zeros n.
Proof.
  unfold np_zeros, vscale.
  induction n as [|n IH]; simpl; [reflexivity|].
  rewrite Rmult_0_r. f_equal. exact IH.
Qed.

Lemma vscale_0 v : vscale 0 v = np_zeros (length v).
Proof.
  unfold np_zeros, vscale.
  induction v as [|x v IH]; simpl; [reflexivity|].
  rewrite Rmult_0_l. f_equal. exact IH.
Qed.

Lemma length_vecmat_acc c A : Forall (fun row => length row = c) A ->
  forall v, length (vecmat_acc c v A) = c.
Proof.
  induction 1 as [|row A Hrow HA IH]; intros [|x v]; simpl;
    try apply length_np_zeros.
  rewrite length_vadd, length_vscale, IH. lia.
Qed.

Lemma vecmat_acc_zeros c A : Forall (fun row => length row = c) A ->
  forall k, vecmat_acc c (np_zeros k) A = np_zeros c.
Proof.
  induction 1 as [|row A Hrow HA IH]; intros [|k]; simpl; try reflexivity.
  rewrite IH, vscale_0, Hrow. apply vadd_zeros_zeros.
Qed.

Lemma vadd_interchange a b c d :
  length a = length b -> length c = length d ->
  vadd (vadd a c) (vadd b d) = vadd (vadd a b) (vadd c d).
Proof.
  unfold vadd. revert b c d.
  induction a as [|x a IH]; intros [|y b] [|z c] [|w d] H1 H2;
    simpl in *; try reflexivity; try discriminate.
  f_equal; [lra | apply IH; lia].
Qed.

Lemma vscale_vadd_distr x a b :
  vscale x (vadd a b) = vadd (vscale x a) (vscale x b).
Proof.
  unfold vadd, vscale. revert b.
  induction a as [|y a IH]; intros [|z b]; simpl; try reflexivity.
  f_equal; [lra | apply IH].
Qed.

Lemma vscale_plus x y a :
  vscale (x + y) a = vadd (vscale x a) (vscale y a).
Proof.
  unfold vadd, vscale. induction a as [|z a IH]; simpl; [reflexivity|].
  f_equal; [lra | apply IH].
Qed.

Lemma vscale_vscale x y a : vscale (x * y) a = vscale x (vscale y a).
Proof.
  unfold vscale. rewrite map_map. apply map_ext. intros; lra.
Qed.

(** [v @ A] is additive and homogeneous in [v]. *)
Lemma vecmat_acc_vadd c A : Forall (fun row => length row = c) A ->
  forall u v, length u = length v ->
  vecmat_acc c (vadd u v) A = vadd (vecmat_acc c u A) (vecmat_acc c v A).
Proof.
  induction 1 as [|row A Hrow HA IH]; intros [|x u] [|y v] Hl;
    simpl in *; try discriminate;
    try (symmetry; apply vadd_zeros_zeros).
  rewrite IH by lia. rewrite vscale_plus.
  symmetry. apply vadd_interchange.
  - rewrite !length_vscale. reflexivity.
  - rewrite !length_vecmat_acc by assumption. reflexivity.
Qed.

Lemma vecmat_acc_vscale c A : Forall (fun row => length row = c) A ->
  forall a v, vecmat_acc c (vscale a v) A = vscale a (vecmat_acc c v A).
Proof.
  induction 1 as [|row A Hrow HA IH]; intros a [|x v]; simpl;
    try (symmetry; apply vscale_zeros).
  rewrite IH, vscale_vadd_distr, vscale_vscale. reflexivity.
Qed.

(** [(v @ A) @ B = v @ (A @ B)]. *)
Lemma vecmat_acc_assoc c k B : Forall (fun row => length row = c) B ->
  forall A, Forall (fun row => length row = k) A ->
  forall v,
  vecmat_acc c (vecmat_acc k v A) B
  = vecmat_acc c v (map (fun row => vecmat_acc c row B) A).
Proof.
  intros HB. induction 1 as [|row A Hrow HA IH]; intros [|x v]; simpl;
    try (apply vecmat_acc_zeros; assumption).
  rewrite vecmat_acc_vadd, vecmat_acc_vscale, IH by
    (try assumption; rewrite length_vscale, length_vecmat_acc; auto).
  reflexivity.
Qed.

Lemma vecmat_acc_cons0 c A : forall v,
  vecmat_acc (S c) v (map (cons 0%R) A) = 0%R :: vecmat_acc c v A.
Proof.
  induction A as [|row A IH]; intros [|x v]; simpl; try reflexivity.
  rewrite IH. unfold vadd. simpl. f_equal. lra.
Qed.

Lemma eye_square n : square n (eye n).
Proof.
  unfold square. induction n as [|n [IHl IHr]]; simpl.
  - split; [reflexivity | constructor].
  - rewrite length_map. split; [congruence|].
    constructor; [simpl; rewrite length_np_zeros; reflexivity|].
    apply Forall_map. eapply Forall_impl; [|exact IHr].
    intros row H. simpl. congruence.
Qed.

Lemma vecmat_acc_eye n : forall v, length v = n -> vecmat_acc n v (eye n) = v.
Proof.
  induction n as [|n IH]; intros [|x v] Hl; simpl in *; try discriminate.
  - reflexivity.
  - rewrite vecmat_acc_cons0, IH by lia.
    unfold vadd. simpl. rewrite vscale_zeros.
    f_equal; [lra|]. injection Hl as Hl. rewrite <- Hl at 1.
    apply vadd_zeros_l.
Qed.

Lemma ncols_square n A : 1 <= n -> square n A -> ncols A = n.
Proof.
  intros Hn [Hl Hrows]. destruct A as [|row A]; simpl in *; [lia|].
  inversion Hrows; subst. unfold ncols. simpl. assumption.
Qed.

Lemma sum_R_nonneg v : Forall (fun x => 0 <= x)%R v -> (0 <= sum_R v)%R.
Proof. induction 1; simpl; lra. Qed.

Lemma sum_R_zero_all_zero v :
  Forall (fun x => 0 <= x)%R v -> sum_R v = 0%R -> v = np_zeros (length v).
Proof.
  induction 1 as [|x v Hx Hv IH]; simpl; intros Hs; [reflexivity|].
  pose proof (sum_R_nonneg Hv).
  assert (x = 0%R) by lra. subst x.
  change (np_zeros (S (length v))) with (0%R :: np_zeros (length v)).
  f_equal. apply IH. lra.
Qed.

Lemma all_nonneg_true v : all_nonneg v = true <-> Forall (fun x => 0 <= x)%R v.
Proof.
  unfold all_nonneg. rewrite forallb_forall, Forall_forall.
  split; intros H x Hx; specialize (H x Hx); unfold Rleb in *;
    destruct (Rle_dec 0 x); auto; discriminate.
Qed.

Lemma all_nonneg_false v : all_nonneg v = false <-> Exists (fun x => x < 0)%R v.
Proof.
  split.
  - intros H. induction v as [|x v IH]; simpl in H; [discriminate|].
    unfold Rleb in H at 1. destruct (Rle_dec 0 x).
    + right. apply IH. exact H.
    + left. lra.
  - intros H. destruct (all_nonneg v) eqn:E; [|reflexivity].
    apply all_nonneg_true in E. apply Exists_exists in H as (x & Hx & Hlt).
    rewrite Forall_forall in E. specialize (E x Hx). lra.
Qed.

Lemma sum_R_map_div v s : sum_R (map (fun x => x / s)%R v) = (sum_R v / s)%R.
Proof.
  induction v as [|x v IH]; simpl; [lra|]. rewrite IH. lra.
Qed.

(** The column sums of an inverse cannot all vanish: [ones @ inv(C) @ C]
    is [ones]. *)
Lemma colsums_inverse_nonzero n C Ci :
  1 <= n -> inverse_of n C Ci ->
  vecmat (np_ones n) Ci <> np_zeros n.
Proof.
  intros Hn (HC & HCi & Hinv) Hz.
  pose proof (ncols_square Hn HC) as HcC.
  pose proof (ncols_square Hn HCi) as HcCi.
  destruct HC as [HCl HCr]. destruct HCi as [HCil HCir].
  assert (H : vecmat_acc n (vecmat_acc n (np_ones n) Ci) C = np_ones n).
  { rewrite (vecmat_acc_assoc HCr HCir).
    unfold matmul, vecmat in Hinv. rewrite HcC in Hinv. rewrite Hinv.
    apply vecmat_acc_eye. apply repeat_length. }
  unfold vecmat in Hz. rewrite HcCi in Hz. rewrite Hz in H.
  rewrite vecmat_acc_zeros in H by assumption.
  destruct n; [lia|]. simpl in H. injection H as H _. lra.
Qed.

Lemma list_as_map_nth (row : list R) :
  row = map (fun j => nth j row 0%R) (seq 0 (length row)).
Proof.
  induction row as [|x row IH]; simpl; [reflexivity|].
  f_equal. rewrite <- seq_shift, map_map. exact IH.
Qed.

Lemma vadd_map (f g : nat -> R) s :
  vadd (map f s) (map g s) = map (fun j => f j + g j)%R s.
Proof.
  unfold vadd. induction s as [|j s IH]; simpl; [reflexivity|].
  f_equal. exact IH.
Qed.

(** [ones @ A] lists the column sums of [A]. *)
Lemma vecmat_ones_column_sums c A :
  Forall (fun row => length row = c) A ->
  vecmat_acc c (np_ones (length A)) A
  = map (fun j => sum_R (column A j)) (seq 0 c).
Proof.
  unfold np_ones. induction 1 as [|row A Hrow HA IH]; simpl.
  - unfold np_zeros, column. simpl. generalize 0.
    induction c as [|c IHc]; intros s; simpl; [reflexivity|].
    f_equal. apply IHc.
  - rewrite IH. rewrite (list_as_map_nth row) at 1. rewrite Hrow.
    unfold vscale. rewrite map_map, vadd_map.
    apply map_ext. intros j. lra.
Qed.

Lemma vecmat_ones_square n A :
  1 <= n -> square n A -> vecmat (np_ones n) A = column_sums A.
Proof.
  intros Hn HA. unfold vecmat, column_sums.
  rewrite (ncols_square Hn HA). destruct HA as [Hl Hr].
  rewrite <- Hl at 2. apply vecmat_ones_column_sums. exact Hr.
Qed.

(** ** calculate_optimal_prior *)

Lemma inv_2x2_swap :
  inv_2x2 [[0; 1]; [1; 0]]%R = inr [[0; 1]; [1; 0]]%R.
Proof.
  unfold inv_2x2. destruct (Req_dec_T (0 * 0 - 1 * 1) 0) as [E|E]; [lra|].
  apply f_equal. list_eq; field.
Qed.

Lemma swap_inverse_of :
  inverse_of 2 [[0; 1]; [1; 0]]%R [[0; 1]; [1; 0]]%R.
Proof.
  unfold inverse_of, square. repeat split; try (repeat constructor).
  unfold matmul, vecmat, ncols, vadd, vscale. simpl.
  list_eq; lra.
Qed.

Section OptimalPriorFacts.

Variable linalg_inv : matrix -> result matrix.

(** On a matrix with an inverse the function takes the [else] branch and
    inspects the column sums of the inverse. *)
Lemma calculate_optimal_prior_Some n C Ci :
  1 <= n -> linalg_inv C = inr Ci -> inverse_of n C Ci ->
  calculate_optimal_prior linalg_inv (Some C)
  = if all_nonneg (column_sums Ci)
    then inr (map (fun x => x / sum_R (column_sums Ci))%R (column_sums Ci))
    else inr (np_full n (1 / INR n)%R).
Proof.
  intros Hn Hinv (HC & HCi & Hmul).
  unfold calculate_optimal_prior. simpl. rewrite Hinv. simpl.
  destruct HC as [HCl HCr]. rewrite HCl.
  rewrite (vecmat_ones_square Hn HCi), app_nil_r. reflexivity.
Qed.

(** C9. For a square invertible cost matrix ([n >= 1]) whose inverse has only
    non-negative column sums, [calculate_optimal_prior] returns a vector of
    [n] entries, all [>= 0], that sums to 1; when some column sum of the
    inverse is negative it returns the uniform vector [1/n, ..., 1/n].
    (Exact real arithmetic; non-negativity of the cost matrix is not needed.) *)
Theorem calculate_optimal_prior_simplex (n : nat) (C Ci : matrix) :
  1 <= n -> linalg_inv C = inr Ci -> inverse_of n C Ci ->
  (Forall (fun x => 0 <= x)%R (column_sums Ci) ->
   exists p, calculate_optimal_prior linalg_inv (Some C) = inr p
             /\ length p = n
             /\ Forall (fun x => 0 <= x)%R p
             /\ sum_R p = 1%R)
  /\ (Exists (fun x => x < 0)%R (column_sums Ci) ->
      calculate_optimal_prior linalg_inv (Some C)
      = inr (np_full n (1 / INR n)%R)).
Proof.
  intros Hn Hinv Hio.
  rewrite (calculate_optimal_prior_Some Hn Hinv Hio).
  pose proof (colsums_inverse_nonzero Hn Hio) as Hnz.
  destruct Hio as (HC & HCi & Hmul).
  rewrite (vecmat_ones_square Hn HCi) in Hnz.
  assert (Hlen : length (column_sums Ci) = n).
  { unfold column_sums. rewrite length_map, length_seq.
    apply (ncols_square Hn HCi). }
  split.
  - intros Hpos. pose proof Hpos as Hb. apply all_nonneg_true in Hb.
    rewrite Hb. eexists. split; [reflexivity|].
    assert (Hs : (0 < sum_R (column_sums Ci))%R).
    { pose proof (sum_R_nonneg Hpos) as H0.
      destruct (Req_dec (sum_R (column_sums Ci)) 0) as [E|E]; [|lra].
      exfalso. apply Hnz. rewrite <- Hlen.
      apply sum_R_zero_all_zero; assumption. }
    split; [rewrite length_map; exact Hlen|]. split.
    + apply Forall_map. eapply Forall_impl; [|exact Hpos].
      intros x Hx. simpl. apply Rmult_le_pos; [exact Hx|].
      left. apply Rinv_0_lt_compat. exact Hs.
    + rewrite sum_R_map_div. field. lra.
  - intros Hneg. apply all_nonneg_false in Hneg. rewrite Hneg. reflexivity.
Qed.

(** C10. With [cost_matrix = None] the call raises ([len(None)] is taken
    before the [is None] test), so the uniform-prior branch for a missing
    matrix is never taken; the function returns a value only for a matrix
    that [np.linalg.inv] accepts. *)
Theorem calculate_optimal_prior_None_raises :
  calculate_optimal_prior linalg_inv None = inl TypeError
  /\ (forall cm p, calculate_optimal_prior linalg_inv cm = inr p ->
        exists C Ci, cm = Some C /\ linalg_inv C = inr Ci).
Proof.
  split; [reflexivity|].
  intros [C|] p H; [|discriminate].
  unfold calculate_optimal_prior in H. simpl in H.
  destruct (linalg_inv C) as [e|Ci] eqn:E; [discriminate|].
  exists C, Ci. split; [reflexivity | exact E].
Qed.

End OptimalPriorFacts.

(** C9 at the 2-class error matrix [[0,1],[1,0]], which is its own inverse:
    the prior is a point of the simplex. *)
Lemma calculate_optimal_prior_simplex_witness :
  (Forall (fun x => 0 <= x)%R (column_sums [[0; 1]; [1; 0]]%R) ->
   exists p, calculate_optimal_prior inv_2x2 (Some [[0; 1]; [1; 0]]%R) = inr p
             /\ length p = 2
             /\ Forall (fun x => 0 <= x)%R p
             /\ sum_R p = 1%R)
  /\ (Exists (fun x => x < 0)%R (column_sums [[0; 1]; [1; 0]]%R) ->
      calculate_optimal_prior inv_2x2 (Some [[0; 1]; [1; 0]]%R)
      = inr (np_full 2 (1 / INR 2)%R)).
Proof.
  apply (@calculate_optimal_prior_simplex inv_2x2 2
           [[0; 1]; [1; 0]]%R [[0; 1]; [1; 0]]%R).
  - lia.
  - exact inv_2x2_swap.
  - exact swap_inverse_of.
Defined.

Example calculate_optimal_prior_error_2 :
  calculate_optimal_prior inv_2x2 (Some [[0; 1]; [1; 0]]%R)
  = inr [(1 / 2)%R; (1 / 2)%R].
Proof.
  rewrite (@calculate_optimal_prior_Some inv_2x2 2 _ [[0; 1]; [1; 0]]%R);
    [| lia | exact inv_2x2_swap | exact swap_inverse_of].
  unfold column_sums, column, ncols, all_nonneg, Rleb. simpl.
  destruct (Rle_dec 0 (0 + (1 + 0))); [|lra].
  destruct (Rle_dec 0 (1 + (0 + 0))); [|lra].
  simpl. apply f_equal. list_eq; field.
Qed.

(** ** _transform_metric *)

(** C6. With [metric = 'cost-vector'] the transform raises [ValueError] for
    every cost vector, also one of shape [(n_classes,)]: line 617 compares the
    shape tuple with the integer [(n_classes)], which are never equal. The
    outer-product matrix is never returned. *)
Theorem transform_metric_cost_vector_raises
    (check_cost_matrix : ndarray -> nat -> result unit)
    (cost_matrix cost_vector : option ndarray) (perf_func : option perf_fn)
    (n_classes : nat) :
  _transform_metric check_cost_matrix "cost-vector" cost_matrix cost_vector
                    perf_func n_classes
  = inl ValueError.
Proof.
  unfold _transform_metric. simpl.
  destruct cost_vector as [cv|]; reflexivity.
Qed.

(** The branch that line 617 guards would build the matrix the spec
    describes, at the vector [1, 2] of two classes. *)
Example cost_vector_branch_1_2 :
  fill_diagonal (outer_ones (flatten (Arr1 [1; 2]%R)) 2) 0
  = cost_vector_matrix [1; 2]%R.
Proof.
  unfold fill_diagonal, outer_ones, matmul, vecmat, ncols, vadd, vscale,
    cost_vector_matrix. simpl. list_eq; lra.
Qed.

(** ** nonmyopic_gain *)

Lemma np_index_in_range len i :
  (0 <= i < Z.of_nat len)%Z -> np_index len i = inr (Z.to_nat i).
Proof.
  intros H. unfold np_index.
  replace ((- Z.of_nat len <=? i)%Z && (i <? Z.of_nat len)%Z) with true.
  - rewrite Z.mod_small by lia. reflexivity.
  - symmetry. apply andb_true_iff. split; [apply Z.leb_le | apply Z.ltb_lt]; lia.
Qed.

Lemma mapM_np_index_in_range len idx :
  Forall (fun i => (0 <= i < Z.of_nat len)%Z) idx ->
  mapM (np_index len) idx = inr (map Z.to_nat idx).
Proof.
  induction 1 as [|i idx Hi Hidx IH]; simpl; [reflexivity|].
  rewrite (@np_index_in_range len i Hi). simpl. rewrite IH. reflexivity.
Qed.

Lemma Forall_in_range_weaken n k idx :
  Forall (fun i => (0 <= i < Z.of_nat n)%Z) idx ->
  Forall (fun i => (0 <= i < Z.of_nat (n + k))%Z) idx.
Proof. apply Forall_impl. intros; lia. Qed.

Lemma py_nth_in_range {A} (l : list A) (k : nat) (d : A) :
  k < length l -> py_nth l (Z.of_nat k) = inr (nth k l d).
Proof.
  intros H. unfold py_nth. rewrite np_index_in_range by lia. simpl.
  rewrite Nat2Z.id. rewrite (nth_error_nth' l d H). reflexivity.
Qed.

Section NonmyopicGainFacts.

Variables (n_cand n_lbld : nat) (X_eval_is_None : bool).
Variable prob_cand_X : nat -> nat -> R.
Variable cond_prob : list Z -> list nat -> Z -> nat -> R.
Variable perf_delta : list Z -> list nat -> R.
Variable uninit : R.

(** With the independence flag off, the body of the inner loop reaches the
    call of [dependent_cand_prob] (ten arguments for nine parameters) and
    raises. *)
Lemma gain_cell_dependent_raises y_sim_lists cand_idx :
  Forall (fun i => (0 <= i < Z.of_nat n_cand)%Z) cand_idx ->
  1 <= length cand_idx <= length y_sim_lists ->
  gain_cell n_cand n_lbld X_eval_is_None prob_cand_X cond_prob perf_delta
            y_sim_lists false cand_idx
  = inl TypeError.
Proof.
  intros Hidx Hlen. unfold gain_cell.
  rewrite (@mapM_np_index_in_range _ _ (@Forall_in_range_weaken n_cand n_lbld _ Hidx)).
  cbn [bind].
  assert (Hk : (if X_eval_is_None then mapM (np_index n_cand) cand_idx
                else inr []) = inr (if X_eval_is_None
                                    then map Z.to_nat cand_idx else [])).
  { destruct X_eval_is_None; [apply mapM_np_index_in_range, Hidx | reflexivity]. }
  rewrite Hk. cbn [bind].
  replace (Z.of_nat (length cand_idx) - 1)%Z
    with (Z.of_nat (length cand_idx - 1)) by lia.
  rewrite (py_nth_in_range y_sim_lists [] (k := length cand_idx - 1)) by lia.
  reflexivity.
Qed.

(** C5. With [nonmyopic_independence = False], [nonmyopic_gain] uses no
    chain-rule probability: for every index set whose first sequence is
    non-empty and holds valid candidate positions, in both gain modes, the
    call of [dependent_cand_prob] at lines 548-551 passes ten arguments to a
    function of nine parameters and raises [TypeError]. *)
Theorem nonmyopic_gain_dependent_always_raises org rest n_classes mode all_eq :
  org <> [] ->
  Forall (fun i => (0 <= i < Z.of_nat n_cand)%Z) org ->
  nonmyopic_gain n_cand n_lbld X_eval_is_None prob_cand_X cond_prob perf_delta
                 uninit (org :: rest) n_classes mode false all_eq
  = inl TypeError.
Proof.
  intros Hne Hidx. unfold nonmyopic_gain. cbn [shape1 bind for_enumerate].
  destruct org as [|c0 org']; [contradiction|].
  destruct mode.
  - unfold prefixes. cbn [length seq map for_enumerate Nat.add firstn].
    rewrite gain_cell_dependent_raises; [reflexivity | |].
    + inversion Hidx; subst. constructor; [assumption | constructor].
    + cbn [length]. rewrite ?length_map, ?length_seq. lia.
  - cbn [for_enumerate].
    rewrite gain_cell_dependent_raises; [reflexivity | assumption |].
    cbn [length]. rewrite ?length_map, ?length_seq. cbn [length]. lia.
Qed.

End NonmyopicGainFacts.

(** One candidate, two classes, independence off: the run ends in the
    [TypeError] of the call at lines 548-551. *)
Example nonmyopic_gain_dependent_one_candidate
    (prob_cand_X : nat -> nat -> R)
    (cond_prob : list Z -> list nat -> Z -> nat -> R)
    (perf_delta : list Z -> list nat -> R) (uninit : R) :
  nonmyopic_gain 1 1 true prob_cand_X cond_prob perf_delta uninit
                 [[0%Z]] 2 Nonmyopic false true
  = inl TypeError.
Proof. reflexivity. Qed.

(** C3. Two candidate sequences of depth 2 evaluated in one call, two
    classes, uniform probability estimates 1/2 and performance delta 1 for
    every labeling: the weighted sum for a depth-2 prefix is 1/2, so dividing
    once by the depth gives 1/4. [nonmyopic_gain] returns 1/8 for the first
    sequence and 1/4 for the second: the division of lines 575-577 sits inside
    the loop over sequences and divides the whole array once per sequence, so
    a row is divided once for itself and once more for every later row. *)
Theorem nonmyopic_gain_divides_repeatedly
    (cond_prob : list Z -> list nat -> Z -> nat -> R) (uninit : R) :
  weighted_delta (fun _ _ => (1 / 2)%R) (fun _ _ => 1%R) 2 true [0; 1]%Z
  = (1 / 2)%R
  /\ nonmyopic_gain 2 1 true (fun _ _ => (1 / 2)%R) cond_prob (fun _ _ => 1%R)
       uninit [[0; 1]; [1; 0]]%Z 2 Nonmyopic true true
     = inr [[1; 1 / 8]; [1; 1 / 4]]%R.
Proof.
  split.
  - unfold weighted_delta. simpl. field.
  - unfold nonmyopic_gain. simpl. apply f_equal. list_eq; field.
Qed.

(** ** XPAL.query *)

Lemma bindM_lift_inr {A B} (a : A) (k : A -> M B) :
  bindM (lift (inr a)) k = k a.
Proof. unfold bindM, lift. simpl. destruct (k a); reflexivity. Qed.

Lemma bindM_lift_inl {A B} (e : PyErr) (k : A -> M B) :
  bindM (lift (inl e)) k = ([], inl e).
Proof. reflexivity. Qed.

Lemma bindM_emit {B} (ev : event) (k : unit -> M B) :
  bindM (emit ev) k = (ev :: fst (k tt), snd (k tt)).
Proof. reflexivity. Qed.

Lemma bindM_retM {A B} (a : A) (k : A -> M B) : bindM (retM a) k = k a.
Proof. unfold bindM, retM. simpl. destruct (k a); reflexivity. Qed.

Section QueryFacts.

Variable check_cost_matrix : ndarray -> nat -> result unit.
Variable linalg_inv : matrix -> result matrix.
Variable nan_as_int : Z.
Variables (K_c_c sim_nan : matrix).
Variable argsort : list R -> list Z.
Variable rand_argmax : list R -> Z.
Variable prob_cand_X : list R -> nat -> nat -> R.
Variable cond_prob : list R -> list Z -> list nat -> Z -> nat -> R.
Variable perf_delta : list R -> list Z -> list nat -> R.
Variable uninit : R.

Let run_query :=
  query check_cost_matrix linalg_inv nan_as_int K_c_c sim_nan argsort
        rand_argmax prob_cand_X cond_prob perf_delta uninit.



(** With a confusion-matrix metric the transform resolves no cost matrix,
    and the prior derivation of line 331 is called with [None]: the query
    raises [TypeError] before any kernel is evaluated. *)
Theorem query_custom_metric_raises self n_cand n_lbld n_classes
    X_eval_is_None batch_size :
  self.(metric) = "macro-accuracy"%string
  \/ self.(metric) = "f1-score"%string
  \/ self.(metric) = "cohens-kappa"%string ->
  run_query self n_cand n_lbld n_classes X_eval_is_None batch_size
  = ([EvPrior], inl TypeError).
Proof.
  intros Hmetric. unfold run_query, query.
  destruct Hmetric as [H|[H|H]]; rewrite H; reflexivity.
Qed.

(** With [metric = 'cost-vector'] the query fails in the metric transform,
    before the prior, the kernels and any utility evaluation. *)
Lemma query_cost_vector_raises self n_cand n_lbld n_classes X_eval_is_None
    batch_size :
  self.(metric) = "cost-vector"%string ->
  run_query self n_cand n_lbld n_classes X_eval_is_None batch_size
  = ([], inl ValueError).
Proof.
  intros Hmetric. unfold run_query, query, _transform_metric.
  rewrite Hmetric. cbn [String.eqb Ascii.eqb Bool.eqb].
  destruct (cost_matrix self) as [cv|]; reflexivity.
Qed.

(** An empty candidate set is rejected by the first kernel call, in every
    batch mode, once the metric transform and the prior derivation have
    succeeded. *)
Lemma query_empty_candidates_raises self n_lbld n_classes X_eval_is_None
    batch_size tr prior :
  _transform_metric check_cost_matrix self.(metric) self.(cost_vector)
    self.(cost_matrix) self.(custom_perf_func) n_classes = inr tr ->
  optimal_prior_of linalg_inv (snd (fst tr)) = inr prior ->
  run_query self 0 n_lbld n_classes X_eval_is_None batch_size
  = ([EvPrior], inl ValueError).
Proof.
  intros Htr Hp. unfold run_query, query.
  rewrite Htr, bindM_lift_inr, bindM_emit, Hp, bindM_lift_inr. reflexivity.
Qed.

(** What a run in greedy mode does once the metric transform and the prior
    derivation have succeeded. *)
Lemma query_greedy_run self n_cand n_lbld n_classes X_eval_is_None batch_size
    tr prior :
  1 <= n_cand ->
  self.(batch_mode) = "greedy"%string ->
  _transform_metric check_cost_matrix self.(metric) self.(cost_vector)
    self.(cost_matrix) self.(custom_perf_func) n_classes = inr tr ->
  optimal_prior_of linalg_inv (snd (fst tr)) = inr prior ->
  let many := (1 <? batch_size) || (1 <? self.(nonmyopic_look_ahead)) in
  let loop :=
    forM (seq 0 batch_size)
      (greedy_step nan_as_int argsort rand_argmax prob_cand_X cond_prob
         perf_delta uninit self n_cand n_lbld n_classes X_eval_is_None
         batch_size (if many then K_c_c else sim_nan)
         (vscale self.(prior_cand) prior))
      None in
  run_query self n_cand n_lbld n_classes X_eval_is_None batch_size
  = ([EvPrior; EvKernel; EvKernel]
     ++ (if X_eval_is_None then [] else [EvKernel])
     ++ (if many then [EvKernel] else [])
     ++ fst loop,
     match snd loop with
     | inl e => inl e
     | inr (Some best_indices) => inr (Idx1 best_indices)
     | inr None => inl UnboundLocalError
     end).
Proof.
  intros Hn Hmode Htr Hp many loop. unfold run_query, query.
  rewrite Htr, bindM_lift_inr, bindM_emit, Hp, bindM_lift_inr, Hmode.
  unfold pairwise_kernels.
  replace (n_cand =? 0) with false by (symmetry; apply Nat.eqb_neq; lia).
  fold many. cbn [String.eqb Ascii.eqb Bool.eqb].
  destruct X_eval_is_None, many; cbn -[forM greedy_step];
    fold loop; destruct loop as [log [e|[b|]]]; cbn; rewrite ?app_nil_r;
    reflexivity.
Qed.

End QueryFacts.

Lemma optimal_prior_error_2 :
  exists p,
    optimal_prior_of inv_2x2
      (Some (Arr2 (map (map (fun x => 1 - x)%R) (eye 2)))) = inr p.
Proof.
  unfold optimal_prior_of, calculate_optimal_prior. simpl.
  destruct (Req_dec_T _ 0) as [E|E]; [lra|]. simpl.
  match goal with |- context [if ?b then _ else _] => destruct b end;
    eexists; reflexivity.
Qed.



(** Without a NaN-cast value among the candidate positions, the candidates a
    greedy pass evaluates are all candidates, whatever was selected before. *)
Lemma np_unique_repeat x n : np_unique (repeat x n) = match n with 0 => [] | _ => [x] end.
Proof.
  induction n as [|n IH]; [reflexivity|].
  simpl. fold (np_unique (repeat x n)). rewrite IH.
  destruct n; simpl; [reflexivity|].
  rewrite Z.ltb_irrefl, Z.eqb_refl. reflexivity.
Qed.

Example setdiff1d_fresh_best_indices :
  setdiff1d (arange 3) (np_full 2 int64_min) = [0; 1; 2]%Z.
Proof. reflexivity. Qed.

(** C2. Three candidates, [batch_size = 2], neighbours ['same'], look-ahead 1,
    NaN cast to [int64] as on x86-64. The first greedy pass selects candidate
    0. The second pass starts from a fresh [best_indices] (line 419), so it
    evaluates candidate 0 again, behind a prefix that holds the NaN-cast
    entry, and the indexing of [X_] in [nonmyopic_gain] raises [IndexError]:
    no two distinct indices are returned. *)
Theorem query_greedy_reevaluates_selected :
  let step :=
    greedy_step int64_min argsort_sorted argmax_first prob_half cond_half
      delta_one 0%R (xpal_default "greedy" 1 "same") 3 1 2 true 2
      (eye 3) [(1 / 2000)%R; (1 / 2000)%R] in
  step 0 None = ([EvGain [[0]; [1]; [2]]%Z], inr (Some [0; int64_min]%Z))
  /\ step 1 (Some [0; int64_min]%Z)
     = ([EvGain [[int64_min; 0]; [int64_min; 1]; [int64_min; 2]]%Z],
        inl IndexError)
  /\ snd (query check_any inv_2x2 int64_min (eye 3) [] argsort_sorted
            argmax_first prob_half cond_half delta_one 0%R
            (xpal_default "greedy" 1 "same") 3 1 2 true 2)
     = inl IndexError.
Proof.
  split; [reflexivity|]. split; [reflexivity|].
  destruct optimal_prior_error_2 as [p Hp].
  rewrite (@query_greedy_run check_any inv_2x2 int64_min (eye 3) []
             argsort_sorted argmax_first prob_half cond_half delta_one 0%R
             (xpal_default "greedy" 1 "same") 3 1 2 true 2 _ p
             (le_S _ _ (le_S _ _ (le_n 1))) eq_refl eq_refl Hp).
  reflexivity.
Qed.

(** C8. One candidate and [batch_size = 2] with the constructor defaults:
    [_validate_input] would warn and clamp the batch size to 1, but [query]
    does not call it (line 325 is commented out). The run logs no warning,
    loops twice and fails in the second pass. *)
Theorem query_does_not_clamp_batch_size :
  _validate_input 1 2 = ([EvWarn], inr 1%Z)
  /\ (let run :=
        query check_any inv_2x2 int64_min [[1]]%R [] argsort_sorted
          argmax_first prob_half cond_half delta_one 0%R
          (xpal_default "greedy" 1 "nearest") 1 1 2 true 2 in
      fst run = [EvPrior; EvKernel; EvKernel; EvKernel;
                 EvGain [[0]]%Z; EvGain [[int64_min; 0]]%Z]
      /\ snd run = inl IndexError).
Proof.
  split; [reflexivity|].
  destruct optimal_prior_error_2 as [p Hp].
  rewrite (@query_greedy_run check_any inv_2x2 int64_min [[1]]%R []
             argsort_sorted argmax_first prob_half cond_half delta_one 0%R
             (xpal_default "greedy" 1 "nearest") 1 1 2 true 2 _ p
             (le_n 1) eq_refl eq_refl Hp).
  split; reflexivity.
Qed.

Lemma np_unique_arange_from s n :
  np_unique (map Z.of_nat (seq s n)) = map Z.of_nat (seq s n).
Proof.
  revert s. induction n as [|n IH]; intros s; [reflexivity|].
  simpl. fold (np_unique (map Z.of_nat (seq (S s) n))). rewrite IH.
  destruct n as [|n]; [reflexivity|]. simpl.
  replace (Z.of_nat s <? Z.pos (Pos.of_succ_nat s))%Z with true; [reflexivity|].
  symmetry. apply Z.ltb_lt. lia.
Qed.

(** A greedy pass evaluates every candidate when the NaN-cast value is not a
    candidate position: nothing selected earlier is excluded. *)
Theorem greedy_pass_evaluates_all_candidates (n_cand batch_size : nat)
    (nan_as_int : Z) :
  (nan_as_int < 0)%Z ->
  setdiff1d (arange (Z.of_nat n_cand)) (np_full batch_size nan_as_int)
  = arange (Z.of_nat n_cand).
Proof.
  intros Hnan. unfold setdiff1d, arange, np_full.
  rewrite Nat2Z.id, np_unique_arange_from, np_unique_repeat.
  apply forallb_filter_id. apply forallb_forall. intros x Hx.
  apply in_map_iff in Hx as (k & <- & _).
  destruct batch_size; [reflexivity|]. simpl.
  replace (Z.of_nat k =? nan_as_int)%Z with false; [reflexivity|].
  symmetry. apply Z.eqb_neq. lia.
Qed.

(** ** Lists: chunks, indexing, grouping *)

Lemma chunk_fuel_flat_map {A B} (f : A -> list B) c xs : 1 <= c ->
  (forall x, In x xs -> length (f x) = c) ->
  forall fuel, length (flat_map f xs) <= fuel ->
  chunk_fuel fuel c (flat_map f xs) = map f xs.
Proof.
  intros Hc. induction xs as [|x xs IH]; intros Hlen fuel Hfuel.
  - destruct fuel; reflexivity.
  - cbn [flat_map map] in *. rewrite length_app in Hfuel.
    assert (Hx : length (f x) = c) by (apply Hlen; left; reflexivity).
    destruct fuel as [|fuel]; [lia|]. cbn [chunk_fuel].
    destruct (f x ++ flat_map f xs) as [|b rest] eqn:E.
    { apply (f_equal (@length B)) in E. rewrite length_app in E. simpl in E. lia. }
    rewrite <- E. rewrite <- Hx at 1 3.
    rewrite firstn_app, Nat.sub_diag, firstn_all, firstn_O, app_nil_r.
    rewrite skipn_app, Nat.sub_diag, skipn_all, skipn_O. cbn [app].
    f_equal. apply IH; [intros; apply Hlen; right; assumption | lia].
Qed.

Lemma chunk_flat_map {A B} (f : A -> list B) c xs : 1 <= c ->
  (forall x, In x xs -> length (f x) = c) ->
  chunk c (flat_map f xs) = map f xs.
Proof.
  intros Hc Hlen. unfold chunk. apply chunk_fuel_flat_map; auto.
Qed.

Lemma nth_map_lt {A B} (f : A -> B) l i d d' :
  i < length l -> nth i (map f l) d' = f (nth i l d).
Proof.
  intros H. rewrite (nth_indep _ d' (f d)) by (rewrite length_map; exact H).
  apply map_nth.
Qed.

Lemma map_seq_ext_nth {A B} (F : nat -> B) (G : A -> B) l d :
  (forall i, i < length l -> F i = G (nth i l d)) ->
  map F (seq 0 (length l)) = map G l.
Proof.
  revert F. induction l as [|a l IH]; intros F H; [reflexivity|].
  cbn [length seq map]. f_equal.
  - apply (H 0). simpl. lia.
  - rewrite <- seq_shift, map_map. apply IH.
    intros i Hi. apply (H (S i)). simpl. lia.
Qed.

Lemma map2_map_map {A B C D} (f : B -> C -> D) (g : A -> B) (h : A -> C) l :
  map2 f (map g l) (map h l) = map (fun x => f (g x) (h x)) l.
Proof. induction l as [|a l IH]; simpl; [|rewrite IH]; reflexivity. Qed.

Lemma combine_map_map {A B C} (g : A -> B) (h : A -> C) l :
  combine (map g l) (map h l) = map (fun x => (g x, h x)) l.
Proof. induction l as [|a l IH]; simpl; [|rewrite IH]; reflexivity. Qed.

Lemma filter_flat_map {A B} (p : B -> bool) (f : A -> list B) l :
  filter p (flat_map f l) = flat_map (fun x => filter p (f x)) l.
Proof.
  induction l as [|a l IH]; simpl; [reflexivity|].
  rewrite filter_app, IH. reflexivity.
Qed.

Lemma filter_all {A} (p : A -> bool) l :
  (forall x, In x l -> p x = true) -> filter p l = l.
Proof.
  induction l as [|a l IH]; simpl; intros H; [reflexivity|].
  rewrite H by auto. f_equal. apply IH. auto.
Qed.

Lemma filter_none {A} (p : A -> bool) l :
  (forall x, In x l -> p x = false) -> filter p l = [].
Proof.
  induction l as [|a l IH]; simpl; intros H; [reflexivity|].
  rewrite H by auto. apply IH. auto.
Qed.

(** Selecting one index from a concatenation indexed by [seq]. *)
Lemma flat_map_select {B} (g : nat -> list B) i s len :
  flat_map (fun m => if m =? i then g m else []) (seq s len)
  = if (s <=? i) && (i <? s + len) then g i else [].
Proof.
  revert s. induction len as [|len IH]; intros s.
  - simpl. rewrite Nat.add_0_r.
    destruct (Nat.leb_spec s i), (Nat.ltb_spec i s); simpl; try reflexivity; lia.
  - cbn [seq flat_map]. rewrite IH.
    destruct (Nat.eqb_spec s i) as [->|Hne].
    + rewrite Nat.leb_refl.
      replace (i <? i + S len) with true by (symmetry; apply Nat.ltb_lt; lia).
      replace (S i <=? i) with false by (symmetry; apply Nat.leb_gt; lia).
      simpl. rewrite app_nil_r. reflexivity.
    + cbn [app].
      destruct (Nat.leb_spec (S s) i), (Nat.leb_spec s i),
        (Nat.ltb_spec i (S s + len)), (Nat.ltb_spec i (s + S len));
        cbn [andb]; try reflexivity; lia.
Qed.

Lemma sum_R_app l1 l2 : sum_R (l1 ++ l2) = (sum_R l1 + sum_R l2)%R.
Proof. induction l1 as [|a l1 IH]; simpl; [|rewrite IH]; lra. Qed.





Lemma mapM_map_inr {A B C} (f : B -> result C) (h : A -> B) (u : A -> C) l :
  (forall x, In x l -> f (h x) = inr (u x)) ->
  mapM f (map h l) = inr (map u l).
Proof.
  induction l as [|a l IH]; intros H; simpl; [reflexivity|].
  rewrite H by (left; reflexivity). simpl.
  rewrite IH by (intros; apply H; right; assumption). reflexivity.
Qed.

Lemma map_const_seq {A} (x : A) s n : map (fun _ => x) (seq s n) = repeat x n.
Proof.
  revert s. induction n as [|n IH]; intros s; simpl; [reflexivity|].
  f_equal. apply IH.
Qed.

(** [v @ A] entry by entry: the dot products with the columns of [A]. *)
Lemma vecmat_acc_dots c A : Forall (fun row => length row = c) A ->
  forall v, length v = length A ->
  vecmat_acc c v A = map (fun j => dot v (column A j)) (seq 0 c).
Proof.
  induction 1 as [|row A Hrow HA IH]; intros [|x v] Hl; simpl in Hl;
    try discriminate.
  - simpl. unfold np_zeros, dot, column. simpl.
    symmetry. apply map_const_seq.
  - cbn [vecmat_acc]. rewrite IH by lia.
    rewrite (list_as_map_nth row) at 1. rewrite Hrow.
    unfold vscale. rewrite map_map, vadd_map.
    apply map_ext. intros j. unfold dot, column, vmul. simpl. reflexivity.
Qed.

Lemma eye_unit_vectors n : eye n = map (unit_vector n) (seq 0 n).
Proof.
  induction n as [|n IH]; [reflexivity|].
  cbn [eye]. rewrite IH. cbn [seq map]. f_equal.
  - unfold unit_vector. cbn [seq map Nat.eqb]. f_equal.
    rewrite <- seq_shift, map_map. unfold np_zeros.
    symmetry. apply (map_const_seq 0%R 0 n).
  - rewrite <- seq_shift, !map_map. apply map_ext. intros j.
    unfold unit_vector. cbn [seq map Nat.eqb]. f_equal.
    rewrite <- seq_shift, map_map. apply map_ext. intros i. reflexivity.
Qed.

Lemma rows_as_map_nth (A : matrix) :
  A = map (fun j => nth j A []) (seq 0 (length A)).
Proof.
  induction A as [|row A IH]; simpl; [reflexivity|].
  f_equal. rewrite <- seq_shift, map_map. exact IH.
Qed.

Lemma vscale_np_ones p n : vscale p (np_ones n) = repeat p n.
Proof.
  unfold vscale, np_ones. induction n as [|n IH]; simpl; [reflexivity|].
  rewrite Rmult_1_r. f_equal. exact IH.
Qed.

Lemma vmul_np_ones v : vmul v (np_ones (length v)) = v.
Proof.
  unfold vmul, np_ones. induction v as [|x v IH]; simpl; [reflexivity|].
  rewrite Rmult_1_r. f_equal. exact IH.
Qed.

Lemma binom_pos n k : 1 <= binom (n + k) k.
Proof.
  pose proof (binom_fact n k) as H. pose proof (lt_O_fact (n + k)).
  destruct (binom (n + k) k); [simpl in H; lia | lia].
Qed.

Lemma gen_l_vec_list_nonempty m n :
  (0 <= m)%Z -> 1 <= n -> 1 <= length (_gen_l_vec_list m n).
Proof.
  intros Hm Hn. rewrite gen_l_vec_list_length by assumption.
  replace (Z.to_nat m + n - 1) with (Z.to_nat m + (n - 1)) by lia.
  apply binom_pos.
Qed.

Lemma max_int_bound x M :
  (0 <= M)%Z -> Forall (fun a => (a <= M)%Z) x -> (max_int x <= M)%Z.
Proof. intros HM. induction 1; simpl; lia. Qed.

Lemma max_int_ge x a : In a x -> (a <= max_int x)%Z.
Proof.
  induction x as [|b x IH]; simpl; [intros []|].
  intros [->|H]; [lia|]. specialize (IH H). lia.
Qed.

(** ** _cost_reduction *)

Section CostReductionFacts.

Variable gammaln : R -> R.

Lemma l_vecs_length_pos n m_max : 1 <= n -> 1 <= length (l_vecs n m_max).
Proof.
  intros Hn. unfold l_vecs. rewrite Nat.add_1_r. cbn [seq flat_map].
  rewrite length_app.
  pose proof (@gen_l_vec_list_nonempty (Z.of_nat 0) n ltac:(lia) Hn). lia.
Qed.

Lemma length_eye n : length (eye n) = n.
Proof. apply (eye_square n). Qed.

(** [factor_3[k_idx, l_idx]] holds [B(k' + l + e_j)] for every [j]. *)
Lemma factor_3_rows (K' : matrix) (L : list (list Z)) n :
  1 <= n -> 1 <= length L ->
  reshape3
    (euler_beta gammaln
       (map (fun elem =>
               vadd (vadd (fst (fst elem)) (map IZR (snd (fst elem))))
                    (snd elem))
            (product3 K' L (eye n))))
    (length K') (length L) n
  = map (fun k' =>
           map (fun l =>
                  map (fun e => euler_beta_row gammaln
                                  (vadd (vadd k' (map IZR l)) e))
                      (eye n))
               L)
        K'.
Proof.
  intros Hn HL. unfold reshape3, euler_beta, product3.
  rewrite map_map, map_flat_map.
  rewrite (flat_map_ext_in _
             (fun k' => flat_map
                (fun l => map (fun e => euler_beta_row gammaln
                                          (vadd (vadd k' (map IZR l)) e))
                              (eye n))
                L)).
  2:{ intros k' _. rewrite map_flat_map. apply flat_map_ext_in.
      intros l _. rewrite map_map. reflexivity. }
  rewrite (flat_map_ext_in _
             (fun k' => flat_map
                (fun kl => map (fun e => euler_beta_row gammaln
                                  (vadd (vadd (fst kl) (map IZR (snd kl))) e))
                               (eye n))
                (map (pair k') L))).
  2:{ intros k' _. rewrite flat_map_map. reflexivity. }
  rewrite <- flat_map_flat_map.
  rewrite chunk_flat_map; [|exact Hn|].
  2:{ intros kl _. rewrite length_map. apply length_eye. }
  rewrite map_flat_map.
  rewrite chunk_flat_map; [|exact HL|].
  2:{ intros k' _. rewrite !length_map. reflexivity. }
  apply map_ext. intros k'. rewrite map_map. reflexivity.
Qed.

Lemma l_vecs_sum_bounds n m_max l :
  In l (l_vecs n m_max) -> (0 <= sum_int l <= Z.of_nat m_max)%Z.
Proof.
  unfold l_vecs. intros H. apply in_flat_map in H as (m & Hm & Hl).
  apply in_seq in Hm.
  rewrite gen_l_vec_list_unfold in Hl by lia.
  apply in_map_iff in Hl as (v & <- & Hv).
  rewrite sum_int_app. simpl. lia.
Qed.

Lemma gen_l_vec_list_sum m n l :
  (0 <= m)%Z -> In l (_gen_l_vec_list m n) -> sum_int l = m.
Proof.
  intros Hm Hl. rewrite gen_l_vec_list_unfold in Hl by assumption.
  apply in_map_iff in Hl as (v & <- & Hv).
  rewrite sum_int_app. simpl. lia.
Qed.

Lemma max_int_l_vecs n m_max :
  1 <= n -> max_int (map sum_int (l_vecs n m_max)) = Z.of_nat m_max.
Proof.
  intros Hn. apply Z.le_antisymm.
  - apply max_int_bound; [lia|]. apply Forall_forall. intros a Ha.
    apply in_map_iff in Ha as (l & <- & Hl).
    apply l_vecs_sum_bounds in Hl. lia.
  - pose proof (@gen_l_vec_list_nonempty (Z.of_nat m_max) n ltac:(lia) Hn) as Hne.
    destruct (_gen_l_vec_list (Z.of_nat m_max) n) as [|l0 rest] eqn:E;
      [simpl in Hne; lia|].
    assert (Hin : In l0 (_gen_l_vec_list (Z.of_nat m_max) n))
      by (rewrite E; left; reflexivity).
    apply max_int_ge. apply in_map_iff. exists l0. split.
    + apply (@gen_l_vec_list_sum (Z.of_nat m_max) n); [lia | exact Hin].
    + unfold l_vecs. apply in_flat_map. exists m_max.
      split; [apply in_seq; lia | exact Hin].
Qed.

(** [np.bincount(m_list, w)] groups the weights by depth: entry [m] is the
    sum over the label vectors that [_gen_l_vec_list] returns for [m]. *)
Lemma bincount_l_vecs n m_max (w : list Z -> R) :
  1 <= n ->
  bincount (map sum_int (l_vecs n m_max)) (map w (l_vecs n m_max))
  = map (fun m => sum_R (map w (_gen_l_vec_list (Z.of_nat m) n)))
        (seq 0 (m_max + 1)).
Proof.
  intros Hn. unfold bincount. rewrite (max_int_l_vecs m_max Hn).
  replace (Z.to_nat (Z.of_nat m_max + 1)) with (m_max + 1) by lia.
  apply map_ext_in. intros i Hi. apply in_seq in Hi.
  rewrite combine_map_map, filter_map_comm, map_map. cbn [fst snd].
  f_equal. f_equal. unfold l_vecs. rewrite filter_flat_map.
  rewrite (flat_map_ext_in _
             (fun m => if m =? i then _gen_l_vec_list (Z.of_nat m) n else [])).
  - rewrite flat_map_select.
    replace ((0 <=? i) && (i <? 0 + (m_max + 1))) with true; [reflexivity|].
    symmetry. apply andb_true_iff.
    split; [apply Nat.leb_le | apply Nat.ltb_lt]; lia.
  - intros m _. destruct (Nat.eqb_spec m i) as [->|Hne].
    + apply filter_all. intros l Hl. apply Z.eqb_eq.
      apply (@gen_l_vec_list_sum (Z.of_nat i) n); [lia | exact Hl].
    + apply filter_none. intros l Hl. apply Z.eqb_neq.
      rewrite (@gen_l_vec_list_sum (Z.of_nat m) n l) by (lia || exact Hl). lia.
Qed.

(** The expected cost at depth [m] as the code accumulates it. *)
Let code_cost (C : matrix) (P k : list R) (n m : nat) : R :=
  (1 / euler_beta_row gammaln (vadd k P)
   * sum_R (map (fun l =>
                   multinomial_row l
                   * dot (column C (argmin (vecmat (vadd k (map IZR l)) C)))
                         (map (fun e => euler_beta_row gammaln
                                          (vadd (vadd (vadd k P) (map IZR l)) e))
                              (eye n)))
                (_gen_l_vec_list (Z.of_nat m) n)))%R.

Lemma length_cost_or_default (C : option matrix) n :
  match C with Some C => length C = n | None => True end ->
  length (cost_or_default C n) = n.
Proof.
  destruct C as [C|]; simpl; [trivial|]. intros _.
  rewrite length_map. apply length_eye.
Qed.

Lemma cost_reduction_unfold (K : matrix) (C : option matrix) m_max prior n :
  1 <= n -> K <> [] -> Forall (fun k => length k = n) K ->
  match C with Some C => length C = n | None => True end ->
  match prior with PriorArray v => length v = n | PriorScalar _ => True end ->
  _cost_reduction gammaln K C m_max prior
  = mapM np_max
      (map (fun k =>
              map (fun m =>
                     ((0 + code_cost (cost_or_default C n) (prior_vector prior n) k n 0
                       - code_cost (cost_or_default C n) (prior_vector prior n) k n m)
                      / INR m)%R)
                  (seq 1 m_max))
           K).
Proof.
  intros Hn HK Hlen HCl Hprior. unfold _cost_reduction.
  destruct K as [|k0 K0] eqn:EK; [contradiction|]. rewrite <- EK in *.
  assert (Hn0 : length k0 = n).
  { rewrite EK in Hlen. inversion Hlen; assumption. }
  rewrite Hn0. fold (cost_or_default C n). fold (l_vecs n m_max).
  rewrite (@length_cost_or_default C n HCl), Nat.eqb_refl. cbn [negb].
  set (Cm := cost_or_default C n).
  set (L := l_vecs n m_max).
  assert (HP : match prior with
               | PriorScalar p => vscale p (np_ones n)
               | PriorArray v => vmul v (np_ones n)
               end = prior_vector prior n).
  { destruct prior as [p|v]; simpl.
    - apply vscale_np_ones.
    - rewrite <- Hprior. apply vmul_np_ones. }
  rewrite HP. set (P := prior_vector prior n).
  f_equal.
  assert (HLpos : 1 <= length L) by (apply l_vecs_length_pos; exact Hn).
  match goal with |- context [map (skipn 1) ?ms] => set (MS := ms) end.
  assert (HMS : MS = map (fun k => map (fun m => code_cost Cm P k n m)
                                       (seq 0 (m_max + 1))) K).
  { subst MS.
    pose proof (@factor_3_rows (map (fun k => vadd k P) K) L n Hn HLpos) as HF3.
    rewrite length_map in HF3. rewrite HF3. clear HF3.
    unfold euler_beta, multinomial. rewrite !map_map.
    apply map_seq_ext_nth with (d := @nil R). intros i Hi.
    rewrite (@nth_map_lt _ _ _ K i [] 0%R Hi).
    rewrite (@nth_map_lt _ _ _ K i [] [] Hi).
    rewrite (@nth_map_lt _ _ _ K i [] [] Hi).
    set (k := nth i K []).
    rewrite (@map_seq_ext_nth _ _ _
               (fun l => dot (column Cm (argmin (vecmat (vadd k (map IZR l)) Cm)))
                             (map (fun e => euler_beta_row gammaln
                                      (vadd (vadd (vadd k P) (map IZR l)) e))
                                  (eye n)))
               L []).
    2:{ intros j Hj. rewrite map_map.
        rewrite (@nth_map_lt _ _ _ L j [] 0 Hj).
        rewrite (@nth_map_lt _ _ _ L j [] [] Hj). reflexivity. }
    unfold vmul. rewrite map2_map_map.
    subst L. rewrite (bincount_l_vecs m_max _ Hn).
    unfold vscale. rewrite map_map. reflexivity. }
  rewrite HMS. clear HMS MS.
  rewrite !map_map, map2_map_map, map_map.
  apply map_ext. intros k.
  rewrite Nat.add_1_r. cbn [seq map nth skipn].
  unfold np_zeros. rewrite <- (map_const_seq 0%R 1 m_max).
  rewrite map_map, !map2_map_map. reflexivity.
Qed.






Lemma mapM_np_max_rows {A} (h : A -> list R) (Q : A -> R -> Prop) l :
  (forall x, In x l -> exists u, np_max (h x) = inr u /\ Q x u) ->
  exists us, mapM np_max (map h l) = inr us /\ Forall2 Q l us.
Proof.
  induction l as [|a l IH]; intros H.
  - exists []. split; [reflexivity | constructor].
  - destruct (H a (or_introl eq_refl)) as (u & Hu & HQ).
    destruct IH as (us & Hus & HF); [intros; apply H; right; assumption|].
    exists (u :: us). split; [|constructor; assumption].
    simpl. rewrite Hu. simpl. rewrite Hus. reflexivity.
Qed.


End CostReductionFacts.






(** ** nonmyopic_gain: the normalisation *)

Lemma skipn_nth_cons {A} (l : list A) i d :
  i < length l -> skipn i l = nth i l d :: skipn (S i) l.
Proof.
  revert i. induction l as [|a l IH]; intros [|i] H; simpl in *; try lia.
  - reflexivity.
  - apply IH. lia.
Qed.

Lemma upd_row_self tmp i : i < length tmp -> upd_row tmp i (nth i tmp []) = tmp.
Proof.
  intros H. unfold upd_row. rewrite <- (skipn_nth_cons tmp [] H).
  apply firstn_skipn.
Qed.

Lemma length_upd_row tmp i row :
  i < length tmp -> length (upd_row tmp i row) = length tmp.
Proof.
  intros H. unfold upd_row.
  rewrite length_app, length_firstn. cbn [length]. rewrite length_skipn. lia.
Qed.

Lemma nth_upd_row tmp i row : i < length tmp -> nth i (upd_row tmp i row) [] = row.
Proof.
  intros H. unfold upd_row.
  rewrite app_nth2; rewrite length_firstn, Nat.min_l by lia; [|lia].
  rewrite Nat.sub_diag. reflexivity.
Qed.

Lemma firstn_upd_row tmp i row :
  i < length tmp -> firstn i (upd_row tmp i row) = firstn i tmp.
Proof.
  intros H. unfold upd_row.
  rewrite firstn_app, length_firstn, Nat.min_l, Nat.sub_diag by lia.
  rewrite firstn_firstn, Nat.min_id. cbn [firstn]. apply app_nil_r.
Qed.

Lemma skipn_upd_row tmp i row :
  i < length tmp -> skipn (S i) (upd_row tmp i row) = skipn (S i) tmp.
Proof.
  intros H. unfold upd_row.
  rewrite skipn_app, length_firstn, Nat.min_l by lia.
  rewrite skipn_all2 by (rewrite length_firstn; lia).
  replace (S i - i) with 1 by lia. reflexivity.
Qed.

Lemma upd_row_upd_row tmp i r1 r2 :
  i < length tmp -> upd_row (upd_row tmp i r1) i r2 = upd_row tmp i r2.
Proof.
  intros H. unfold upd_row at 1.
  rewrite firstn_upd_row, skipn_upd_row by exact H. reflexivity.
Qed.

Lemma set_cell_upd_row tmp i j v :
  i < length tmp -> j < length (nth i tmp []) ->
  set_cell tmp i j v
  = upd_row tmp i (firstn j (nth i tmp []) ++ v :: skipn (S j) (nth i tmp [])).
Proof.
  intros Hi Hj. unfold set_cell, upd_row.
  rewrite (skipn_nth_cons tmp [] Hi).
  rewrite (skipn_nth_cons (nth i tmp []) 0%R Hj). reflexivity.
Qed.

(** The inner loop (lines 532-573) writes row [i] cell by cell. *)
Lemma inner_loop_writes_row (cell : list Z -> result R) (W : list Z -> R) i :
  forall subsets j0 tmp,
  (forall c, In c subsets -> cell c = inr (W c)) ->
  i < length tmp ->
  length (nth i tmp []) = j0 + length subsets ->
  for_enumerate j0 subsets
    (fun j c t => (v <- cell c ;; inr (set_cell t i j v))%py) tmp
  = inr (upd_row tmp i (firstn j0 (nth i tmp []) ++ map W subsets)).
Proof.
  induction subsets as [|c rest IH]; intros j0 tmp Hcell Hi Hlen.
  - cbn [for_enumerate map]. rewrite app_nil_r.
    simpl in Hlen. rewrite firstn_all2 by lia.
    rewrite upd_row_self by exact Hi. reflexivity.
  - cbn [for_enumerate]. rewrite (Hcell c (or_introl eq_refl)). cbn [bind].
    cbn [length] in Hlen.
    rewrite set_cell_upd_row by lia.
    set (row := nth i tmp []) in *.
    set (row' := firstn j0 row ++ W c :: skipn (S j0) row).
    rewrite IH.
    + rewrite upd_row_upd_row by exact Hi.
      rewrite nth_upd_row by exact Hi. f_equal. f_equal.
      subst row'. replace (S j0) with (length (firstn j0 row) + 1)
        by (rewrite length_firstn; lia).
      rewrite firstn_app_2. cbn [firstn map].
      rewrite <- app_assoc. reflexivity.
    + intros c' Hc'. apply Hcell. right. exact Hc'.
    + rewrite length_upd_row; exact Hi.
    + rewrite nth_upd_row by exact Hi. subst row'.
      rewrite length_app, length_firstn. cbn [length]. rewrite length_skipn. lia.
Qed.

Lemma length_div_pow t row : length (div_pow t row) = length row.
Proof.
  unfold div_pow. rewrite length_map2, length_seq. apply Nat.min_id.
Qed.

Lemma map2_div_pow_compose s t : forall row a,
  map2 (fun x d => (x / INR d ^ s)%R)
       (map2 (fun x d => (x / INR d ^ t)%R) row (seq a (length row)))
       (seq a (length row))
  = map2 (fun x d => (x / INR d ^ (s + t))%R) row (seq a (length row)).
Proof.
  induction row as [|x row IH]; intros a; [reflexivity|].
  cbn [length seq map2]. rewrite IH. f_equal.
  rewrite pow_add. unfold Rdiv. rewrite Rinv_mult. ring.
Qed.

Lemma div_pow_div_pow s t row : div_pow s (div_pow t row) = div_pow (s + t) row.
Proof.
  unfold div_pow at 1. rewrite length_div_pow. unfold div_pow.
  apply map2_div_pow_compose.
Qed.

Lemma div_pow_0 row : div_pow 0 row = row.
Proof.
  unfold div_pow. generalize 1.
  induction row as [|x row IH]; intros a; [reflexivity|].
  cbn [length seq map2]. rewrite IH. f_equal. simpl. field.
Qed.

Lemma divide_by_depth_div_pow tmp : divide_by_depth tmp = map (div_pow 1) tmp.
Proof.
  unfold divide_by_depth. apply map_ext. intros row. unfold div_pow.
  assert (H : forall a,
             map2 Rdiv row (map INR (seq a (length row)))
             = map2 (fun x d => (x / INR d ^ 1)%R) row (seq a (length row))).
  { induction row as [|x row IH]; intros a; [reflexivity|].
    cbn [length seq map map2]. rewrite IH. f_equal. rewrite pow_1.
    reflexivity. }
  apply H.
Qed.


Lemma fold_left_add_sum {A} (h : A -> R) l : forall a,
  fold_left (fun acc x => (acc + h x)%R) l a = (a + sum_R (map h l))%R.
Proof.
  induction l as [|x l IH]; intros a; simpl; [lra|]. rewrite IH. lra.
Qed.

Lemma map2_map_l {A B C D} (f : B -> C -> D) (g : A -> B) l : forall l',
  map2 f (map g l) l' = map2 (fun a c => f (g a) c) l l'.
Proof.
  induction l as [|a l IH]; intros [|c l']; simpl; try reflexivity.
  rewrite IH. reflexivity.
Qed.

Lemma combine_map_r {A B} (g : A -> B) l :
  combine l (map g l) = map (fun x => (x, g x)) l.
Proof. induction l as [|a l IH]; simpl; [|rewrite IH]; reflexivity. Qed.

Lemma combine_map_l {A B C} (g : A -> B) l : forall l' : list C,
  combine (map g l) l'
  = map (fun p => (g (fst p), snd p)) (combine l l').
Proof.
  induction l as [|a l IH]; intros [|c l']; simpl; try reflexivity.
  rewrite IH. reflexivity.
Qed.

Lemma In_firstn {A} (x : A) n l : In x (firstn n l) -> In x l.
Proof.
  intros H. rewrite <- (firstn_skipn n l). apply in_or_app. left. exact H.
Qed.

Lemma In_skipn {A} (x : A) n l : In x (skipn n l) -> In x l.
Proof.
  intros H. rewrite <- (firstn_skipn n l). apply in_or_app. right. exact H.
Qed.

Lemma map2_diag {A B} (f : A -> A -> B) l : map2 f l l = map (fun x => f x x) l.
Proof. induction l as [|a l IH]; simpl; [|rewrite IH]; reflexivity. Qed.

Lemma div_pow_map_seq t (h : nat -> R) len :
  div_pow t (map h (seq 1 len)) = map (fun d => (h d / INR d ^ t)%R) (seq 1 len).
Proof.
  unfold div_pow. rewrite length_map, length_seq, map2_map_l.
  apply map2_diag.
Qed.

Section NormalisationFacts.

Variables (n_cand n_lbld : nat) (X_eval_is_None : bool).
Variable prob_cand_X : nat -> nat -> R.
Variable cond_prob : list Z -> list nat -> Z -> nat -> R.
Variable perf_delta : list Z -> list nat -> R.
Variable uninit : R.
Variables (n_classes : nat) (all_eq : bool).

Let W := weighted_delta prob_cand_X perf_delta n_classes all_eq.

(** Under independence the inner loop leaves the probability-weighted sum
    of performance deltas in the cell. *)
Lemma gain_cell_independent M cand_idx :
  Forall (fun i => (0 <= i < Z.of_nat n_cand)%Z) cand_idx ->
  1 <= length cand_idx <= M ->
  gain_cell n_cand n_lbld X_eval_is_None prob_cand_X cond_prob perf_delta
    (map (fun n => _get_y_sim_list n_classes n all_eq) (seq 1 M))
    true cand_idx
  = inr (W cand_idx).
Proof.
  intros Hidx Hlen. unfold gain_cell.
  rewrite (@mapM_np_index_in_range _ _ (@Forall_in_range_weaken n_cand n_lbld _ Hidx)).
  cbn [bind].
  assert (Hk : (if X_eval_is_None then mapM (np_index n_cand) cand_idx
                else inr []) = inr (if X_eval_is_None
                                    then map Z.to_nat cand_idx else [])).
  { destruct X_eval_is_None; [apply mapM_np_index_in_range, Hidx | reflexivity]. }
  rewrite Hk. cbn [bind].
  replace (Z.of_nat (length cand_idx) - 1)%Z
    with (Z.of_nat (length cand_idx - 1)) by lia.
  rewrite (@py_nth_in_range _ _ (length cand_idx - 1) [])
    by (rewrite length_map, length_seq; lia).
  rewrite (@nth_map_lt _ _ _ (seq 1 M) (length cand_idx - 1) 0 [])
    by (rewrite length_seq; lia).
  rewrite seq_nth by lia.
  replace (1 + (length cand_idx - 1)) with (length cand_idx) by lia.
  cbn [bind]. rewrite (@mapM_np_index_in_range _ _ Hidx). cbn [bind].
  rewrite combine_map_r, fold_left_add_sum.
  unfold W, weighted_delta. rewrite Rplus_0_l, map_map. cbn [fst snd].
  f_equal. f_equal. apply map_ext. intros y_sim.
  rewrite map2_map_l. ring.
Qed.

(** The values of one row: the weighted sums of the prefixes of [org]. *)
Let Wrow (M : nat) (org : list Z) : list R :=
  map (fun d => W (firstn d org)) (seq 1 M).

Let valid_row (M : nat) (org : list Z) : Prop :=
  length org = M /\ Forall (fun i => (0 <= i < Z.of_nat n_cand)%Z) org.

Lemma inner_loop_independent M i org tmp :
  valid_row M org -> i < length tmp -> length (nth i tmp []) = M ->
  for_enumerate 0 (prefixes org)
    (fun j c t =>
       (v <- gain_cell n_cand n_lbld X_eval_is_None prob_cand_X cond_prob
               perf_delta
               (map (fun n => _get_y_sim_list n_classes n all_eq) (seq 1 M))
               true c ;;
        inr (set_cell t i j v))%py)
    tmp
  = inr (upd_row tmp i (Wrow M org)).
Proof.
  intros [Hlen Hidx] Hi Hrow.
  rewrite (@inner_loop_writes_row _ W i (prefixes org) 0 tmp).
  - cbn [firstn app]. unfold prefixes, Wrow. rewrite map_map, Hlen.
    rewrite <- seq_shift, map_map. do 2 f_equal.
    apply map_ext. intros k. rewrite Nat.add_1_r. reflexivity.
  - intros c Hc. unfold prefixes in Hc.
    apply in_map_iff in Hc as (k & <- & Hk). apply in_seq in Hk.
    apply gain_cell_independent.
    + apply Forall_forall. intros x Hx.
      rewrite Forall_forall in Hidx. apply Hidx.
      apply (@In_firstn _ _ _ _ Hx).
    + rewrite length_firstn. lia.
  - exact Hi.
  - unfold prefixes. rewrite length_map, length_seq. lia.
Qed.

(** The loop over candidate sequences (lines 524-577): every pass writes its
    row and then divides the whole array, so the rows written before are
    divided once more. *)
Lemma outer_loop_divides M : forall rest i0 tmp,
  length tmp = i0 + length rest ->
  Forall (fun row => length row = M) tmp ->
  Forall (valid_row M) rest ->
  for_enumerate i0 rest
    (fun i org tmp =>
       (tmp <- for_enumerate 0 (prefixes org)
                 (fun j c t =>
                    v <- gain_cell n_cand n_lbld X_eval_is_None prob_cand_X
                           cond_prob perf_delta
                           (map (fun n => _get_y_sim_list n_classes n all_eq)
                                (seq 1 M))
                           true c ;;
                    inr (set_cell t i j v))
                 tmp ;;
        inr (divide_by_depth tmp))%py)
    tmp
  = inr (map (div_pow (length rest)) (firstn i0 tmp)
         ++ map (fun p => div_pow (length rest - fst p) (Wrow M (snd p)))
                (combine (seq 0 (length rest)) rest)).
Proof.
  induction rest as [|org rest IH]; intros i0 tmp Hlen Hrows Hvalid.
  - cbn [for_enumerate length seq combine map]. rewrite app_nil_r.
    simpl in Hlen. rewrite firstn_all2 by lia.
    rewrite (map_ext _ (fun row => row)) by apply div_pow_0.
    rewrite map_id. reflexivity.
  - cbn [length] in Hlen. inversion Hvalid as [|? ? Horg Hrest]; subst.
    cbn [for_enumerate].
    assert (Hi : i0 < length tmp) by lia.
    rewrite inner_loop_independent;
      [| exact Horg | exact Hi
       | rewrite Forall_forall in Hrows; apply Hrows, nth_In, Hi].
    cbn [bind]. rewrite divide_by_depth_div_pow.
    assert (HWlen : length (Wrow M org) = M).
    { unfold Wrow. rewrite length_map, length_seq. reflexivity. }
    rewrite IH.
    + rewrite firstn_map.
      replace (firstn (S i0) (upd_row tmp i0 (Wrow M org)))
        with (firstn i0 tmp ++ [Wrow M org]).
      2:{ unfold upd_row.
          replace (S i0) with (length (firstn i0 tmp) + 1)
            by (rewrite length_firstn; lia).
          rewrite firstn_app_2. reflexivity. }
      rewrite !map_app, !map_map, <- app_assoc. cbn [map app].
      apply f_equal. apply (f_equal2 (@app _)).
      * apply map_ext. intros row. rewrite div_pow_div_pow.
        f_equal. cbn [length]. lia.
      * cbn [length seq combine map fst snd]. apply (f_equal2 (@cons _)).
        -- rewrite div_pow_div_pow. f_equal. lia.
        -- rewrite <- seq_shift, combine_map_l, map_map.
           apply map_ext. intros [r o]. cbn [fst snd]. reflexivity.
    + rewrite length_map, length_upd_row by exact Hi. lia.
    + apply Forall_map. unfold upd_row. apply Forall_app. split.
      * apply Forall_forall. intros row Hrow. rewrite length_div_pow.
        rewrite Forall_forall in Hrows. apply Hrows.
        apply (@In_firstn _ _ _ _ Hrow).
      * constructor; [rewrite length_div_pow; exact HWlen|].
        apply Forall_forall. intros row Hrow. rewrite length_div_pow.
        rewrite Forall_forall in Hrows. apply Hrows.
        apply (@In_skipn _ _ _ _ Hrow).
    + exact Hrest.
Qed.

(** In nonmyopic mode with independent probabilities, for [n] candidate
    sequences of depth [M] with valid indices, the utility returned for the
    depth-[d] prefix of sequence [i] (counted from 0) is the
    probability-weighted sum of performance deltas divided by [d ^ (n - i)]:
    once for the pass that wrote it and once for every later pass. *)
Theorem nonmyopic_gain_divides_per_pass (M : nat) (cand_idx_set : list (list Z)) :
  cand_idx_set <> [] ->
  Forall (fun org => length org = M
                     /\ Forall (fun i => (0 <= i < Z.of_nat n_cand)%Z) org)
         cand_idx_set ->
  nonmyopic_gain n_cand n_lbld X_eval_is_None prob_cand_X cond_prob perf_delta
                 uninit cand_idx_set n_classes Nonmyopic true all_eq
  = inr (map (fun p =>
                map (fun d =>
                       (weighted_delta prob_cand_X perf_delta n_classes all_eq
                                       (firstn d (snd p))
                        / INR d ^ (length cand_idx_set - fst p))%R)
                    (seq 1 M))
             (combine (seq 0 (length cand_idx_set)) cand_idx_set)).
Proof.
  intros Hne Hvalid. unfold nonmyopic_gain.
  assert (Hs : shape1 cand_idx_set = inr M).
  { destruct cand_idx_set as [|org0 rest]; [contradiction|].
    inversion Hvalid as [|? ? [H _] _]. simpl. rewrite H. reflexivity. }
  rewrite Hs. cbn [bind].
  pose proof (@outer_loop_divides M cand_idx_set 0
                (map (fun org => np_full (length org) uninit) cand_idx_set)) as H.
  etransitivity; [apply H|].
  - rewrite length_map. reflexivity.
  - apply Forall_map. eapply Forall_impl; [|exact Hvalid].
    intros org [Hl _]. unfold np_full. rewrite repeat_length. exact Hl.
  - exact Hvalid.
  - cbn [firstn map app]. apply f_equal. apply map_ext. intros [i org].
    cbn [fst snd]. unfold Wrow. apply div_pow_map_seq.
Qed.

End NormalisationFacts.

(** The normalisation at two sequences of depth 2 over two candidates. *)
Lemma nonmyopic_gain_divides_per_pass_witness :
  nonmyopic_gain 2 1 true (fun _ _ => (1 / 2)%R) (fun _ _ _ _ => (1 / 2)%R)
                 (fun _ _ => 1%R) 0%R [[0; 1]; [1; 0]]%Z 2 Nonmyopic true true
  = inr (map (fun p =>
                map (fun d =>
                       (weighted_delta (fun _ _ => (1 / 2)%R) (fun _ _ => 1%R)
                                       2 true (firstn d (snd p))
                        / INR d ^ (length [[0; 1]; [1; 0]]%Z - fst p))%R)
                    (seq 1 2))
             (combine (seq 0 (length [[0; 1]; [1; 0]]%Z)) [[0; 1]; [1; 0]]%Z)).
Proof.
  apply (@nonmyopic_gain_divides_per_pass 2 1 true (fun _ _ => (1 / 2)%R)
           (fun _ _ _ _ => (1 / 2)%R) (fun _ _ => 1%R) 0%R 2 true 2
           [[0; 1]; [1; 0]]%Z).
  - discriminate.
  - repeat constructor; simpl; lia.
Defined.

(** ** Further properties *)

Lemma fold_left_mul_prod {A} (h : A -> R) l : forall a,
  fold_left (fun acc x => (acc * h x)%R) l a = (a * prod_R (map h l))%R.
Proof.
  induction l as [|x l IH]; intros a; simpl; [lra|]. rewrite IH. ring.
Qed.

(** [dependent_cand_prob] itself computes the chain-rule product for every
    hypothetical labeling. *)
Theorem dependent_cand_prob_chain_rule
    (cond_prob : list Z -> list nat -> Z -> nat -> R)
    (cand_idx : list Z) (y_sim_list : list (list nat)) :
  dependent_cand_prob cond_prob cand_idx y_sim_list
  = map (chain_rule_prob cond_prob cand_idx) y_sim_list.
Proof.
  unfold dependent_cand_prob, chain_rule_prob. apply map_ext. intros y_sim.
  rewrite (fold_left_mul_prod
             (fun i => cond_prob (firstn i cand_idx) (firstn i y_sim)
                                 (nth i cand_idx 0%Z) (nth i y_sim 0))).
  ring.
Qed.

(** Every label vector is enumerated. *)
Theorem gen_l_vec_list_complete (m : Z) (n_classes : nat) (l : list Z) :
  (0 <= m)%Z -> 1 <= n_classes ->
  is_label_vector n_classes m l -> In l (_gen_l_vec_list m n_classes).
Proof.
  intros Hm Hn Hl. apply gen_l_vec_list_In; assumption.
Qed.

Lemma gen_l_vec_list_complete_witness : In [1; 0; 1]%Z (_gen_l_vec_list 2 3).
Proof.
  apply (@gen_l_vec_list_complete 2 3 [1; 0; 1]%Z); [lia | lia |].
  unfold is_label_vector. repeat split; try reflexivity.
  repeat constructor; lia.
Defined.

(** C5 at three candidates, two sequences of depth 2 in batch mode. *)
Lemma nonmyopic_gain_dependent_always_raises_witness :
  nonmyopic_gain 3 2 false (fun _ _ => (1 / 3)%R) (fun _ _ _ _ => (1 / 3)%R)
                 (fun _ _ => 1%R) 0%R ([2; 0]%Z :: [[1; 2]%Z]) 3 Batch false false
  = inl TypeError.
Proof.
  apply (@nonmyopic_gain_dependent_always_raises 3 2 false
           (fun _ _ => (1 / 3)%R) (fun _ _ _ _ => (1 / 3)%R) (fun _ _ => 1%R)
           0%R [2; 0]%Z [[1; 2]%Z] 3 Batch false).
  - discriminate.
  - repeat constructor; lia.
Defined.

Lemma greedy_pass_evaluates_all_candidates_witness :
  setdiff1d (arange (Z.of_nat 4)) (np_full 3 int64_min) = arange (Z.of_nat 4).
Proof.
  apply (@greedy_pass_evaluates_all_candidates 4 3 int64_min).
  unfold int64_min. lia.
Defined.

Lemma query_custom_metric_raises_witness :
  query check_any inv_2x2 int64_min [[1; 0]; [0; 1]]%R [] argsort_sorted
        argmax_first prob_half cond_half delta_one 0%R
        (xpal_with_metric "f1-score") 2 1 2 true 1
  = ([EvPrior], inl TypeError).
Proof.
  apply (@query_custom_metric_raises check_any inv_2x2 int64_min
           [[1; 0]; [0; 1]]%R [] argsort_sorted argmax_first prob_half
           cond_half delta_one 0%R (xpal_with_metric "f1-score") 2 1 2 true 1).
  right. left. reflexivity.
Defined.

(** ** _gen_l_vec_list: negative arguments *)

Lemma for_range_extend_nil m k : for_range k (extend_label_vecs m) [] = [].
Proof. induction k as [|k IH]; [reflexivity | exact IH]. Qed.

(** For a negative number of labels no error is raised: with two or more
    classes the result is empty, with at most one class it is the single
    vector [[m]]. *)
Theorem gen_l_vec_list_negative (m : Z) (n_classes : nat) :
  (m < 0)%Z ->
  _gen_l_vec_list m n_classes = if 2 <=? n_classes then [] else [[m]].
Proof.
  intros Hm. unfold _gen_l_vec_list.
  destruct (Nat.leb_spec 2 n_classes) as [Hn|Hn].
  - destruct n_classes as [|[|k]]; try lia.
    replace (S (S k) - 1) with (S k) by lia. cbn [for_range].
    assert (H : extend_label_vecs m [[]] = []).
    { unfold extend_label_vecs, arange.
      replace (Z.to_nat (m + 1)) with 0 by lia. reflexivity. }
    rewrite H, for_range_extend_nil. reflexivity.
  - replace (n_classes - 1) with 0 by lia. simpl. rewrite Z.sub_0_r.
    reflexivity.
Qed.

Lemma gen_l_vec_list_negative_witness :
  _gen_l_vec_list (-3) 4 = if 2 <=? 4 then [] else [[(-3)%Z]].
Proof. apply (@gen_l_vec_list_negative (-3) 4). lia. Defined.

(** ** _get_y_sim_list *)

Lemma label_product_In n k : forall y,
  In y (label_product n k) <-> length y = k /\ Forall (fun c => c < n) y.
Proof.
  induction k as [|k IH]; intros y; cbn [label_product].
  - split.
    + intros [<-|[]]. split; [reflexivity | constructor].
    + intros [Hl _]. destruct y; [left; reflexivity | discriminate].
  - rewrite in_flat_map. split.
    + intros (c & Hc & Hy). apply in_map_iff in Hy as (w & <- & Hw).
      apply IH in Hw as [Hl Hw]. apply in_seq in Hc.
      split; [simpl; congruence | constructor; [lia | exact Hw]].
    + intros [Hl Hy]. destruct y as [|c w]; [discriminate|].
      inversion Hy; subst. exists c. split; [apply in_seq; lia|].
      apply in_map. apply IH. split; [simpl in Hl; lia | assumption].
Qed.

Lemma label_product_NoDup n k : NoDup (label_product n k).
Proof.
  induction k as [|k IH]; cbn [label_product].
  - constructor; [intros [] | constructor].
  - generalize (seq_NoDup n 0). generalize (seq 0 n). intros cs Hcs.
    induction Hcs as [|c cs Hc Hcs IHcs]; simpl; [constructor|].
    apply NoDup_app.
    + apply NoDup_map_inj; [|exact IH]. intros a b _ _ H. congruence.
    + exact IHcs.
    + intros y Hy Hy'. apply in_map_iff in Hy as (w & <- & _).
      apply in_flat_map in Hy' as (c' & Hc' & Hy').
      apply in_map_iff in Hy' as (w' & Heq & _).
      injection Heq as -> _. contradiction.
Qed.

Lemma label_product_length n k : length (label_product n k) = n ^ k.
Proof.
  induction k as [|k IH]; cbn [label_product]; [reflexivity|].
  rewrite (@flat_map_constant_length _ _ (n ^ k)).
  - rewrite length_seq. reflexivity.
  - intros c _. rewrite length_map. exact IH.
Qed.

(** Without the all-equal restriction the simulated labelings are exactly the
    [n_classes ^ n_instances] label tuples over the classes, each once. *)
Theorem get_y_sim_list_all_labelings (n_classes n_instances : nat) :
  length (_get_y_sim_list n_classes n_instances false)
  = n_classes ^ n_instances
  /\ NoDup (_get_y_sim_list n_classes n_instances false)
  /\ (forall y, In y (_get_y_sim_list n_classes n_instances false)
                <-> length y = n_instances /\ Forall (fun c => c < n_classes) y).
Proof.
  unfold _get_y_sim_list. split; [apply label_product_length|].
  split; [apply label_product_NoDup | apply label_product_In].
Qed.

(** With the all-equal restriction there are [n_classes] labelings, and each
    of them is one of the unrestricted labelings. *)
Theorem get_y_sim_list_all_equal (n_classes n_instances : nat) :
  length (_get_y_sim_list n_classes n_instances true) = n_classes
  /\ incl (_get_y_sim_list n_classes n_instances true)
          (_get_y_sim_list n_classes n_instances false).
Proof.
  unfold _get_y_sim_list.
  split; [rewrite length_map, length_seq; reflexivity|].
  intros y Hy. apply in_map_iff in Hy as (c & <- & Hc). apply in_seq in Hc.
  apply label_product_In. split; [apply repeat_length|].
  apply Forall_forall. intros x Hx. apply repeat_spec in Hx. lia.
Qed.

(** ** _transform_metric: the resolved cost matrices *)

Lemma outer_ones_rows v n :
  outer_ones v n = map (fun x => map (fun _ => x) (seq 0 n)) v.
Proof.
  unfold outer_ones, matmul. rewrite map_map. apply map_ext. intros x.
  unfold vecmat, ncols. cbn [hd vecmat_acc].
  unfold np_ones. rewrite repeat_length. unfold vscale, vadd, np_zeros.
  rewrite <- !(map_const_seq _ 0 n), map_map, map2_map_map.
  apply map_ext. intros _. lra.
Qed.

Lemma one_minus_eye n :
  map (map (fun x => 1 - x)%R) (eye n) = error_cost_matrix n.
Proof.
  rewrite eye_unit_vectors, map_map. unfold error_cost_matrix.
  apply map_ext. intros i. unfold unit_vector. rewrite map_map.
  apply map_ext. intros j. destruct (j =? i); lra.
Qed.

Lemma abs_row_minus_column n :
  map (map Rabs)
      (mat_map2 Rminus (outer_ones (map INR (seq 0 n)) n)
                (transpose (outer_ones (map INR (seq 0 n)) n)))
  = ordinal_cost_matrix n.
Proof.
  rewrite outer_ones_rows, map_map.
  set (A := map (fun x => map (fun _ => INR x) (seq 0 n)) (seq 0 n)).
  assert (HT : transpose A
               = map (fun i => map (fun j => INR j) (seq 0 n)) (seq 0 n)).
  { assert (Hnc : ncols A = n).
    { unfold ncols, A. generalize (length_seq n 0).
      destruct (seq 0 n) as [|x l]; simpl; intros Hl; [lia|].
      rewrite length_map. exact Hl. }
    unfold transpose. rewrite Hnc. unfold A.
    apply map_ext_in. intros i Hi. apply in_seq in Hi.
    unfold column. rewrite map_map. apply map_ext. intros j.
    rewrite (@nth_map_lt _ _ _ (seq 0 n) i 0 0%R)
      by (rewrite length_seq; lia).
    reflexivity. }
  rewrite HT. unfold A, mat_map2, ordinal_cost_matrix.
  rewrite map2_map_map, map_map. apply map_ext. intros i.
  rewrite map2_map_map, map_map. reflexivity.
Qed.

(** [metric = 'error'] resolves the matrix with zero on the diagonal and one
    everywhere else, whatever the other arguments. *)
Theorem transform_metric_error
    (check_cost_matrix : ndarray -> nat -> result unit)
    (cost_matrix cost_vector : option ndarray) (perf_func : option perf_fn)
    (n_classes : nat) :
  _transform_metric check_cost_matrix "error" cost_matrix cost_vector
                    perf_func n_classes
  = inr ("misclassification-loss"%string,
         Some (Arr2 (error_cost_matrix n_classes)), None).
Proof.
  unfold _transform_metric. cbn [String.eqb Ascii.eqb Bool.eqb].
  rewrite one_minus_eye. reflexivity.
Qed.

(** [metric = 'mean-abs-error'] resolves the matrix of ordinal distances
    [|i - j|]. *)
Theorem transform_metric_mean_abs_error
    (check_cost_matrix : ndarray -> nat -> result unit)
    (cost_matrix cost_vector : option ndarray) (perf_func : option perf_fn)
    (n_classes : nat) :
  _transform_metric check_cost_matrix "mean-abs-error" cost_matrix cost_vector
                    perf_func n_classes
  = inr ("misclassification-loss"%string,
         Some (Arr2 (ordinal_cost_matrix n_classes)), None).
Proof.
  unfold _transform_metric. cbn [String.eqb Ascii.eqb Bool.eqb].
  rewrite abs_row_minus_column. reflexivity.
Qed.

(** A metric name outside the seven known ones raises [ValueError]; this
    includes ['custom'], the name the error message recommends. *)
Theorem transform_metric_unknown_raises
    (check_cost_matrix : ndarray -> nat -> result unit) (metric : string)
    (cost_matrix cost_vector : option ndarray) (perf_func : option perf_fn)
    (n_classes : nat) :
  ~ In metric known_metrics ->
  _transform_metric check_cost_matrix metric cost_matrix cost_vector
                    perf_func n_classes
  = inl ValueError.
Proof.
  intros Hnot. unfold _transform_metric, known_metrics in *.
  repeat match goal with
         | |- context [(metric =? ?s)%string] =>
             destruct (String.eqb_spec metric s) as [->|_];
             [exfalso; apply Hnot; simpl; tauto|]
         end.
  reflexivity.
Qed.

Lemma transform_metric_unknown_raises_witness :
  _transform_metric check_any "custom" None None None 3 = inl ValueError.
Proof.
  apply (@transform_metric_unknown_raises check_any "custom" None None None 3).
  unfold known_metrics. simpl.
  intros H. repeat (destruct H as [H|H]; [discriminate|]). exact H.
Defined.

(** ** _cost_reduction: edge cases and composition *)

Lemma mapM_app {A B} (f : A -> result B) l1 l2 :
  mapM f (l1 ++ l2)
  = (a <- mapM f l1 ;; b <- mapM f l2 ;; inr (a ++ b))%py.
Proof.
  induction l1 as [|x l1 IH]; simpl.
  - destruct (mapM f l2); reflexivity.
  - destruct (f x) as [e|y]; [reflexivity|]. simpl. rewrite IH.
    destruct (mapM f l1) as [e|a]; [reflexivity|]. simpl.
    destruct (mapM f l2); reflexivity.
Qed.

Lemma mapM_length {A B} (f : A -> result B) l bs :
  mapM f l = inr bs -> length bs = length l.
Proof.
  revert bs. induction l as [|x l IH]; simpl; intros bs H.
  - injection H as <-. reflexivity.
  - destruct (f x) as [e|y]; [discriminate|]. simpl in H.
    destruct (mapM f l) as [e|a]; [discriminate|]. simpl in H.
    injection H as <-. simpl. f_equal. apply IH. reflexivity.
Qed.

(** With [m_max = 0] the gains array has no column and [np.max] over it
    raises [ValueError]: [_cost_reduction] itself does not return zero
    utilities for a look-ahead of zero. *)
Theorem cost_reduction_zero_depth (gammaln : R -> R) (k_vec_list : matrix)
    (C : option matrix) (prior : prior_arg) (n : nat) :
  1 <= n -> k_vec_list <> [] ->
  Forall (fun k => length k = n) k_vec_list ->
  match prior with PriorArray v => length v = n | PriorScalar _ => True end ->
  _cost_reduction gammaln k_vec_list C 0 prior = inl ValueError.
Proof.
  intros Hn HK Hlen Hprior.
  destruct (Nat.eq_dec (length (cost_or_default C n)) n) as [HCn|HCn].
  - assert (HCl : match C with Some C => length C = n | None => True end).
    { destruct C as [C|]; [exact HCn | exact I]. }
    rewrite (@cost_reduction_unfold gammaln k_vec_list C 0 prior n Hn HK Hlen
               HCl Hprior).
    destruct k_vec_list as [|k K]; [contradiction | reflexivity].
  - unfold _cost_reduction.
    destruct k_vec_list as [|k K]; [contradiction|].
    inversion Hlen as [|? ? Hk _]; subst. fold (cost_or_default C (length k)).
    apply Nat.eqb_neq in HCn. rewrite HCn. reflexivity.
Qed.

Lemma cost_reduction_zero_depth_witness :
  _cost_reduction (fun _ => 0%R) [[5; 5]; [10; 0]]%R None 0 (PriorScalar 1)
  = inl ValueError.
Proof.
  apply (@cost_reduction_zero_depth (fun _ => 0%R) [[5; 5]; [10; 0]]%R None
           (PriorScalar 1) 2).
  - lia.
  - discriminate.
  - repeat constructor.
  - exact I.
Defined.

(** With a cost matrix of [n_classes] rows (or none), the utility of a
    candidate does not depend on the other candidates of the call: the
    utilities of a concatenated list are the utilities of its parts, one per
    candidate. *)
Theorem cost_reduction_candidates_independent (gammaln : R -> R)
    (K1 K2 : matrix) (C : option matrix) (m_max n : nat) (prior : prior_arg) :
  1 <= m_max -> 1 <= n -> K1 <> [] -> K2 <> [] ->
  Forall (fun k => length k = n) K1 -> Forall (fun k => length k = n) K2 ->
  match C with Some C => square n C | None => True end ->
  match prior with PriorArray v => length v = n | PriorScalar _ => True end ->
  exists u1 u2,
    _cost_reduction gammaln K1 C m_max prior = inr u1
    /\ _cost_reduction gammaln K2 C m_max prior = inr u2
    /\ _cost_reduction gammaln (K1 ++ K2) C m_max prior = inr (u1 ++ u2)
    /\ length u1 = length K1 /\ length u2 = length K2.
Proof.
  intros Hm Hn HK1 HK2 Hl1 Hl2 HC Hprior.
  assert (HCl : match C with Some C => length C = n | None => True end).
  { destruct C as [C|]; [exact (proj1 HC) | exact I]. }
  assert (HK : K1 ++ K2 <> []).
  { destruct K1; [contradiction | discriminate]. }
  assert (Hl : Forall (fun k => length k = n) (K1 ++ K2)).
  { apply Forall_app. split; assumption. }
  rewrite (@cost_reduction_unfold gammaln K1 C m_max prior n Hn HK1 Hl1 HCl
             Hprior).
  rewrite (@cost_reduction_unfold gammaln K2 C m_max prior n Hn HK2 Hl2 HCl
             Hprior).
  rewrite (@cost_reduction_unfold gammaln (K1 ++ K2) C m_max prior n Hn HK Hl
             HCl Hprior).
  rewrite map_app, mapM_app.
  match goal with
  | |- context [mapM np_max (map ?h K1)] => set (gains := h)
  end.
  assert (Hrow : forall k, exists u, np_max (gains k) = inr u /\ True).
  { intros k. destruct (gains k) as [|x r] eqn:E.
    - apply (f_equal (@length R)) in E. unfold gains in E.
      rewrite length_map, length_seq in E. simpl in E. lia.
    - eexists. split; [reflexivity | exact I]. }
  destruct (@mapM_np_max_rows _ gains (fun _ _ => True) K1
              (fun k _ => Hrow k)) as (u1 & Hu1 & _).
  destruct (@mapM_np_max_rows _ gains (fun _ _ => True) K2
              (fun k _ => Hrow k)) as (u2 & Hu2 & _).
  exists u1, u2. rewrite Hu1, Hu2. repeat split; try reflexivity.
  - rewrite (mapM_length _ _ Hu1). apply length_map.
  - rewrite (mapM_length _ _ Hu2). apply length_map.
Qed.

Lemma cost_reduction_candidates_independent_witness :
  exists u1 u2,
    _cost_reduction (fun _ => 0%R) [[5; 5]]%R None 2 (PriorScalar 1) = inr u1
    /\ _cost_reduction (fun _ => 0%R) [[10; 0]; [1; 2]]%R None 2 (PriorScalar 1)
       = inr u2
    /\ _cost_reduction (fun _ => 0%R) ([[5; 5]]%R ++ [[10; 0]; [1; 2]]%R) None 2
         (PriorScalar 1)
       = inr (u1 ++ u2)
    /\ length u1 = length [[5; 5]]%R
    /\ length u2 = length [[10; 0]; [1; 2]]%R.
Proof.
  apply (@cost_reduction_candidates_independent (fun _ => 0%R) [[5; 5]]%R
           [[10; 0]; [1; 2]]%R None 2 2 (PriorScalar 1)).
  - lia.
  - lia.
  - discriminate.
  - discriminate.
  - repeat constructor.
  - repeat constructor.
  - exact I.
  - exact I.
Defined.

(** ** _dperf *)

Lemma np_mask_unchanged {A : Type} (pred : list Z) (l : list A) :
  length pred = length l ->
  np_mask (map2 (fun n o => negb (n =? o)%Z) pred pred) l = inr [].
Proof.
  intros Hlen. unfold np_mask.
  assert (Hl : forall (q : list Z),
             length (map2 (fun n o => negb (n =? o)%Z) q q) = length q).
  { induction q; simpl; auto. }
  rewrite Hl, Hlen, Nat.eqb_refl. f_equal. clear Hl.
  revert l Hlen. induction pred as [|p pred IH]; intros [|a l] Hlen;
    simpl in *; try reflexivity; try discriminate.
  rewrite Z.eqb_refl. simpl. apply IH. lia.
Qed.

(** On the cost-matrix path a hypothetical labeling that changes no
    prediction has performance delta zero, whatever the predictions, the
    probabilities and the costs are ([probs] is not empty: the source
    divides by its length). *)
Theorem dperf_unchanged_predictions (probs : matrix) (pred : list Z)
    (cost_matrix : matrix) (perf_func : perf_fn) :
  length pred = length probs ->
  probs <> [] ->
  ncols probs = length cost_matrix ->
  _dperf probs pred pred true cost_matrix perf_func = inr 0%R.
Proof.
  intros Hlen Hne Hw. unfold _dperf, np_not_equal.
  rewrite Nat.eqb_refl. cbn [bind].
  rewrite (np_mask_unchanged pred probs Hlen). cbn [bind].
  rewrite (np_mask_unchanged pred pred eq_refl). cbn [bind np_take mapM].
  unfold np_multiply, mat_map2. cbn [map2].
  rewrite Hw, Nat.eqb_refl. cbn [bind concat sum_R fold_right].
  f_equal. unfold Rdiv. ring.
Qed.

Lemma dperf_unchanged_predictions_witness :
  _dperf [[1; 0]; [0; 1]]%R [0; 1]%Z [0; 1]%Z true [[0; 1]; [1; 0]]%R
         score_accuracy = inr 0%R.
Proof.
  apply dperf_unchanged_predictions;
    [reflexivity | discriminate | reflexivity].
Defined.

Lemma take_transpose (C : matrix) (idx : list Z) :
  Forall (fun y => (0 <= y < Z.of_nat (ncols C))%Z) idx ->
  np_take (transpose C) idx = inr (map (fun y => column C (Z.to_nat y)) idx).
Proof.
  unfold np_take.
  induction 1 as [|y idx Hy Hidx IH]; cbn [mapM map]; [reflexivity|].
  rewrite IH.
  replace y with (Z.of_nat (Z.to_nat y)) at 1 by lia.
  rewrite (@py_nth_in_range _ (transpose C) (Z.to_nat y) []).
  2:{ unfold transpose. rewrite length_map, length_seq. lia. }
  cbn [bind]. unfold transpose.
  rewrite (nth_indep _ [] (column C 0)).
  2:{ rewrite length_map, length_seq. lia. }
  rewrite (map_nth (column C)). rewrite seq_nth by lia. reflexivity.
Qed.

Lemma dot_minus (p a b : list R) :
  length a = length b ->
  sum_R (map2 Rmult p (map2 Rminus a b)) = (dot p a - dot p b)%R.
Proof.
  unfold dot, vmul. revert a b.
  induction p as [|x p IH]; intros [|y a] [|z b] Hlen; simpl in *;
    try discriminate; try ring.
  rewrite IH by lia. ring.
Qed.

Lemma Forall_mask {A : Type} (P : A -> Prop) (ch : list bool) (l : list A) :
  Forall P l -> Forall P (map snd (filter fst (combine ch l))).
Proof.
  intros H. revert ch. induction H as [|a l Ha Hl IH]; intros [|b ch];
    simpl; try constructor.
  destruct b; simpl; [constructor; [exact Ha | apply IH] | apply IH].
Qed.

Lemma masked_cost_sum (C : matrix) (probs : matrix) :
  forall (pred_old pred_new : list Z),
    length pred_old = length probs ->
    length pred_new = length probs ->
    let ch := map2 (fun n o => negb (n =? o)%Z) pred_new pred_old in
    let colf := fun y => column C (Z.to_nat y) in
    sum_R (concat (mat_map2 Rmult
                     (map snd (filter fst (combine ch probs)))
                     (mat_map2 Rminus
                        (map colf (map snd (filter fst (combine ch pred_old))))
                        (map colf (map snd (filter fst (combine ch pred_new)))))))
    = sum_R (map2 (fun p on => expected_cost_of C p (fst on)
                               - expected_cost_of C p (snd on))%R
                  probs (combine pred_old pred_new)).
Proof.
  induction probs as [|p probs IH]; intros [|o po] [|n pn] Ho Hn;
    simpl in *; try discriminate; try reflexivity.
  specialize (IH po pn ltac:(lia) ltac:(lia)). simpl in IH.
  destruct (Z.eqb_spec n o) as [->|Hneq]; simpl.
  - unfold mat_map2 in *. rewrite IH. ring.
  - unfold mat_map2 in *. cbn [map2 concat]. rewrite sum_R_app, IH.
    rewrite dot_minus by (unfold column; rewrite !length_map; reflexivity).
    reflexivity.
Qed.

(** On the cost-matrix path the performance delta is the mean, over the
    evaluation instances, of the fall in expected cost when the prediction
    moves from the old to the new class; instances whose prediction does
    not change contribute nothing. *)
Theorem dperf_decomposable_mean_cost_change (probs : matrix)
    (pred_old pred_new : list Z) (cost_matrix : matrix)
    (perf_func : perf_fn) :
  length pred_old = length probs ->
  length pred_new = length probs ->
  probs <> [] ->
  ncols probs = length cost_matrix ->
  Forall (fun y => (0 <= y < Z.of_nat (ncols cost_matrix))%Z) pred_old ->
  Forall (fun y => (0 <= y < Z.of_nat (ncols cost_matrix))%Z) pred_new ->
  _dperf probs pred_old pred_new true cost_matrix perf_func
  = inr (mean_cost_change cost_matrix probs pred_old pred_new).
Proof.
  intros Ho Hn Hne Hw Fo Fn. unfold _dperf, np_not_equal.
  rewrite Hn, Ho, Nat.eqb_refl. cbn [bind].
  assert (Hch : length (map2 (fun n o => negb (n =? o)%Z) pred_new pred_old)
                = length probs).
  { rewrite length_map2; lia. }
  unfold np_mask. rewrite Hch, Ho, Hn, !Nat.eqb_refl. cbn [bind].
  rewrite (@take_transpose cost_matrix _ (Forall_mask _ Fo)). cbn [bind].
  rewrite (@take_transpose cost_matrix _ (Forall_mask _ Fn)). cbn [bind].
  unfold np_multiply. rewrite Hw, Nat.eqb_refl. cbn [bind].
  unfold mean_cost_change. do 2 f_equal.
  apply masked_cost_sum; assumption.
Qed.

Lemma dperf_decomposable_mean_cost_change_witness :
  _dperf [[1; 0]; [0; 1]]%R [0; 1]%Z [1; 1]%Z true [[0; 1]; [1; 0]]%R
         score_accuracy
  = inr (mean_cost_change [[0; 1]; [1; 0]]%R [[1; 0]; [0; 1]]%R
                          [0; 1]%Z [1; 1]%Z).
Proof.
  apply dperf_decomposable_mean_cost_change;
    [reflexivity | reflexivity | discriminate | reflexivity
    | repeat constructor; simpl; lia | repeat constructor; simpl; lia].
Defined.

Lemma length_sum_axis0 n rows :
  Forall (fun p => length p = n) rows -> length (sum_axis0 n rows) = n.
Proof.
  induction 1 as [|p rows Hp Hrows IH]; cbn [sum_axis0 fold_right].
  - apply length_np_zeros.
  - fold (sum_axis0 n rows). rewrite length_vadd, IH, Hp. lia.
Qed.

Lemma nth_vadd u v c :
  length u = length v ->
  nth c (vadd u v) 0%R = (nth c u 0 + nth c v 0)%R.
Proof.
  unfold vadd. revert v c.
  induction u as [|x u IH]; intros [|y v] c Hlen; simpl in *;
    try discriminate.
  - destruct c; ring.
  - destruct c; [reflexivity | apply IH; lia].
Qed.

Lemma nth_sum_axis0 n rows c :
  Forall (fun p => length p = n) rows ->
  nth c (sum_axis0 n rows) 0%R = sum_R (map (fun p => nth c p 0%R) rows).
Proof.
  induction 1 as [|p rows Hp Hrows IH]; cbn [sum_axis0 fold_right map sum_R].
  - unfold np_zeros. destruct (Nat.lt_ge_cases c n) as [Hc|Hc].
    + apply nth_repeat_lt. exact Hc.
    + apply nth_overflow. rewrite repeat_length. exact Hc.
  - fold (sum_axis0 n rows). fold (sum_R (map (fun p => nth c p 0%R) rows)).
    rewrite nth_vadd by (rewrite length_sum_axis0 by exact Hrows; exact Hp).
    rewrite IH. reflexivity.
Qed.

Lemma masked_column_mass (probs : matrix) (pred : list Z) (c y : nat) :
  length pred = length probs ->
  sum_R (map (fun p => nth c p 0%R)
             (map snd (filter fst (combine (pred_is pred y) probs))))
  = confusion_entry probs pred c y.
Proof.
  unfold confusion_entry, pred_is. revert probs.
  induction pred as [|yp pred IH]; intros [|p probs] Hlen; simpl in *;
    try discriminate; try reflexivity.
  destruct (yp =? Z.of_nat y)%Z; simpl; rewrite IH by lia; ring.
Qed.

Lemma row_update (h : nat -> R) (x : R) (n k : nat) :
  k < n ->
  firstn k (map h (seq 0 n))
  ++ match skipn k (map h (seq 0 n)) with
     | [] => []
     | c :: t => (c + x)%R :: t
     end
  = map (fun y => if y =? k then (h k + x)%R else h y) (seq 0 n).
Proof.
  intros Hk. replace n with (k + S (n - S k)) by lia.
  rewrite seq_app, !map_app. cbn [seq map Nat.add].
  rewrite firstn_app, skipn_app, !length_map, !length_seq, Nat.sub_diag.
  cbn [firstn skipn]. rewrite app_nil_r.
  rewrite firstn_all2 by (rewrite length_map, length_seq; lia).
  rewrite skipn_all2 by (rewrite length_map, length_seq; lia).
  cbn [app]. rewrite Nat.eqb_refl. f_equal; [|f_equal].
  - apply map_ext_in. intros y Hy. apply in_seq in Hy.
    destruct (Nat.eqb_spec y k); [lia | reflexivity].
  - apply map_ext_in. intros y Hy. apply in_seq in Hy.
    destruct (Nat.eqb_spec y k); [lia | reflexivity].
Qed.

(** The partially filled confusion matrix after the columns below [k]. *)
Lemma add_to_column_step (n k : nat) (E : nat -> nat -> R) (v : list R) :
  k < n -> length v = n ->
  add_to_column
    (map (fun c => map (fun y => if y <? k then E c y else 0%R) (seq 0 n))
         (seq 0 n))
    k v
  = map (fun c => map (fun y => if y <? S k
                                then (if y =? k then nth c v 0%R else E c y)
                                else 0%R) (seq 0 n))
        (seq 0 n).
Proof.
  intros Hk Hv. unfold add_to_column.
  rewrite (list_as_map_nth v) at 1. rewrite Hv.
  rewrite map2_map_map. apply map_ext. intros c.
  rewrite row_update by exact Hk. apply map_ext. intros y.
  rewrite Nat.ltb_irrefl.
  destruct (Nat.eqb_spec y k) as [->|Hy].
  - replace (k <? S k) with true by (symmetry; apply Nat.ltb_lt; lia). ring.
  - destruct (Nat.ltb_spec y k), (Nat.ltb_spec y (S k)); try lia; reflexivity.
Qed.

Lemma confusion_matrices_prefix (probs : matrix) (pred_old pred_new : list Z) :
  length pred_old = length probs ->
  length pred_new = length probs ->
  Forall (fun p => length p = ncols probs) probs ->
  forall k, k <= ncols probs ->
    fold_left
      (fun acc y_pred =>
         (conf <- acc ;;
          rows_old <- np_mask (pred_is pred_old y_pred) probs ;;
          rows_new <- np_mask (pred_is pred_new y_pred) probs ;;
          inr (add_to_column (fst conf) y_pred
                 (sum_axis0 (ncols probs) rows_old),
               add_to_column (snd conf) y_pred
                 (sum_axis0 (ncols probs) rows_new)))%py)
      (seq 0 k)
      (inr (np_full (ncols probs) (np_zeros (ncols probs)),
            np_full (ncols probs) (np_zeros (ncols probs))))
    = inr (map (fun c => map (fun y => if y <? k
                                       then confusion_entry probs pred_old c y
                                       else 0%R) (seq 0 (ncols probs)))
               (seq 0 (ncols probs)),
           map (fun c => map (fun y => if y <? k
                                       then confusion_entry probs pred_new c y
                                       else 0%R) (seq 0 (ncols probs)))
               (seq 0 (ncols probs))).
Proof.
  intros Ho Hn Hrect. induction k as [|k IH]; intros Hk.
  - cbn [seq fold_left]. unfold np_full, np_zeros.
    rewrite <- !map_const_seq with (s := 0). reflexivity.
  - rewrite seq_S, fold_left_app, IH by lia. cbn [Nat.add fold_left bind].
    unfold np_mask, pred_is. rewrite !length_map, Ho, Hn, Nat.eqb_refl.
    cbn [bind fst snd]. fold (pred_is pred_old k). fold (pred_is pred_new k).
    rewrite !add_to_column_step;
      try lia; try (apply length_sum_axis0, Forall_mask, Hrect).
    f_equal. f_equal.
    + apply map_ext. intros c. apply map_ext. intros y.
      destruct (Nat.ltb_spec y (S k)); [|reflexivity].
      destruct (Nat.eqb_spec y k) as [->|]; [|reflexivity].
      rewrite nth_sum_axis0 by (apply Forall_mask, Hrect).
      apply masked_column_mass. exact Ho.
    + apply map_ext. intros c. apply map_ext. intros y.
      destruct (Nat.ltb_spec y (S k)); [|reflexivity].
      destruct (Nat.eqb_spec y k) as [->|]; [|reflexivity].
      rewrite nth_sum_axis0 by (apply Forall_mask, Hrect).
      apply masked_column_mass. exact Hn.
Qed.

(** On the confusion-matrix path the performance delta is the performance
    of the new confusion matrix minus that of the old one, where entry
    [(c, y)] of a confusion matrix is the probability mass of class [c]
    over the evaluation instances predicted as [y]. *)
Theorem dperf_confusion_matrix_difference (probs : matrix)
    (pred_old pred_new : list Z) (cost_matrix : matrix)
    (perf_func : perf_fn) :
  length pred_old = length probs ->
  length pred_new = length probs ->
  Forall (fun p => length p = ncols probs) probs ->
  _dperf probs pred_old pred_new false cost_matrix perf_func
  = inr (perf_func (confusion_of probs pred_new)
         - perf_func (confusion_of probs pred_old))%R.
Proof.
  intros Ho Hn Hrect. unfold _dperf, confusion_matrices.
  rewrite (@confusion_matrices_prefix probs pred_old pred_new Ho Hn Hrect
             (ncols probs) (le_n _)).
  cbn [bind fst snd]. unfold confusion_of.
  assert (Hfull : forall pred,
             map (fun c => map (fun y => if y <? ncols probs
                                         then confusion_entry probs pred c y
                                         else 0%R) (seq 0 (ncols probs)))
                 (seq 0 (ncols probs))
             = map (fun c => map (confusion_entry probs pred c)
                                 (seq 0 (ncols probs)))
                   (seq 0 (ncols probs))).
  { intros pred. apply map_ext. intros c. apply map_ext_in. intros y Hy.
    apply in_seq in Hy.
    destruct (Nat.ltb_spec y (ncols probs)); [reflexivity | lia]. }
  rewrite !Hfull. reflexivity.
Qed.

Lemma dperf_confusion_matrix_difference_witness :
  _dperf [[1; 0]; [0; 1]]%R [0; 1]%Z [1; 1]%Z false [] score_accuracy
  = inr (score_accuracy (confusion_of [[1; 0]; [0; 1]]%R [1; 1]%Z)
         - score_accuracy (confusion_of [[1; 0]; [0; 1]]%R [0; 1]%Z))%R.
Proof.
  apply dperf_confusion_matrix_difference;
    [reflexivity | reflexivity | repeat constructor].
Defined.

(** ** Performance functions on a confusion matrix *)

Lemma In_le_sum_R (l : list R) (x : R) :
  Forall (fun y => 0 <= y)%R l -> In x l -> (x <= sum_R l)%R.
Proof.
  induction 1 as [|y l Hy Hl IH]; intros Hin; [destruct Hin|].
  simpl. pose proof (sum_R_nonneg Hl). destruct Hin as [->|Hin].
  - lra.
  - specialize (IH Hin). lra.
Qed.

Lemma last_In {A : Type} (l : list A) (d : A) : l <> [] -> In (last l d) l.
Proof.
  induction l as [|a l IH]; intros Hne; [congruence|].
  destruct l as [|b l]; [left; reflexivity|].
  right. apply IH. discriminate.
Qed.

Lemma last_R_nonneg (row : list R) :
  Forall (fun y => 0 <= y)%R row -> (0 <= last_R row)%R.
Proof.
  intros H. unfold last_R. destruct row as [|a row]; [simpl; lra|].
  apply (proj1 (Forall_forall _ _) H). apply last_In. discriminate.
Qed.

(** The F1 score computed from recall and precision, with its two guards,
    is the usual [2 tp / (2 tp + fn + fp)]: twice the last diagonal entry
    over the sum of the last row and the last column.  It lies between 0
    and 1. *)
Theorem f1_score_func_closed_form (conf_matrix : matrix) :
  Forall (Forall (fun y => 0 <= y)%R) conf_matrix ->
  (0 < sum_R (last conf_matrix []))%R ->
  let tp := last_R (last conf_matrix []) in
  f1_score_func conf_matrix
  = (2 * tp / (sum_R (last conf_matrix []) + sum_R (map last_R conf_matrix)))%R
  /\ (0 <= f1_score_func conf_matrix <= 1)%R.
Proof.
  intros Hnn Hrow tp.
  assert (Hne : conf_matrix <> []).
  { intros ->. simpl in Hrow. lra. }
  assert (Hlast : Forall (fun y => 0 <= y)%R (last conf_matrix [])).
  { apply (proj1 (Forall_forall _ _) Hnn). apply last_In. exact Hne. }
  assert (Hrne : last conf_matrix [] <> []).
  { intros E. rewrite E in Hrow. simpl in Hrow. lra. }
  assert (Htp0 : (0 <= tp)%R) by (apply last_R_nonneg; exact Hlast).
  assert (Htpr : (tp <= sum_R (last conf_matrix []))%R).
  { apply In_le_sum_R; [exact Hlast|]. apply last_In. exact Hrne. }
  assert (Hcol : Forall (fun y => 0 <= y)%R (map last_R conf_matrix)).
  { apply Forall_map. revert Hnn. apply Forall_impl. intros row.
    apply last_R_nonneg. }
  assert (Htpc : (tp <= sum_R (map last_R conf_matrix))%R).
  { apply In_le_sum_R; [exact Hcol|]. apply in_map. apply last_In.
    exact Hne. }
  unfold f1_score_func, score_recall, score_precision. fold tp.
  set (r := sum_R (last conf_matrix [])) in *.
  set (c := sum_R (map last_R conf_matrix)) in *.
  assert (Hq : forall a b, (0 <= a)%R -> (0 < b)%R -> (0 <= a / b)%R).
  { intros a b Ha Hb. unfold Rdiv. apply Rmult_le_pos; [exact Ha|].
    left. apply Rinv_0_lt_compat. exact Hb. }
  assert (Hbound : (0 <= 2 * tp / (r + c) <= 1)%R).
  { split.
    - apply Hq; lra.
    - apply (Rmult_le_reg_r (r + c)); [lra|]. field_simplify; lra. }
  unfold Rltb. cbv zeta.
  destruct (Rlt_dec 0 c) as [Hc|Hc].
  - destruct (Rlt_dec 0 (tp / r + tp / c)) as [Hn|Hn].
    + assert (Htp : (0 < tp)%R).
      { destruct (Rle_lt_or_eq_dec _ _ Htp0) as [H|H]; [exact H|].
        rewrite <- H in Hn. unfold Rdiv in Hn.
        rewrite !Rmult_0_l in Hn. lra. }
      assert (E : (2 * (tp / r) * (tp / c) / (tp / r + tp / c)
                   = 2 * tp / (r + c))%R).
      { field. pose proof (Rmult_lt_0_compat _ _ Htp Hc).
        pose proof (Rmult_lt_0_compat _ _ Htp Hrow).
        repeat split; lra. }
      rewrite E. split; [reflexivity | exact Hbound].
    + assert (Htp : tp = 0%R).
      { destruct (Rle_lt_or_eq_dec _ _ Htp0) as [H|H]; [|symmetry; exact H].
        exfalso. apply Hn.
        pose proof (Hq tp c Htp0 Hc).
        assert (0 < tp / r)%R.
        { unfold Rdiv. apply Rmult_lt_0_compat; [exact H|].
          apply Rinv_0_lt_compat. exact Hrow. }
        lra. }
      rewrite Htp. unfold Rdiv. rewrite !Rmult_0_r, Rmult_0_l.
      split; [reflexivity | lra].
  - assert (Htp : tp = 0%R) by lra.
    rewrite Htp.
    destruct (Rlt_dec 0 (0 / r + 0)) as [Hn|Hn].
    + exfalso. unfold Rdiv in Hn. rewrite Rmult_0_l in Hn. lra.
    + unfold Rdiv. rewrite !Rmult_0_r, Rmult_0_l. split; [reflexivity | lra].
Qed.

Lemma f1_score_func_closed_form_witness :
  f1_score_func [[2; 1]; [1; 3]]%R
  = (2 * last_R (last [[2; 1]; [1; 3]] [])
     / (sum_R (last [[2; 1]; [1; 3]] []) + sum_R (map last_R [[2; 1]; [1; 3]])))%R
  /\ (0 <= f1_score_func [[2; 1]; [1; 3]] <= 1)%R.
Proof.
  apply f1_score_func_closed_form.
  - repeat constructor; lra.
  - simpl. lra.
Defined.

(** ** calculate_optimal_prior on the misclassification-error matrix *)

Lemma sum_R_repeat x n : sum_R (repeat x n) = (INR n * x)%R.
Proof.
  induction n as [|n IH]; [simpl; ring|].
  rewrite S_INR. cbn [repeat]. change (sum_R (x :: repeat x n)) with
    (x + sum_R (repeat x n))%R. rewrite IH. ring.
Qed.

Lemma sum_R_except (f : nat -> R) (j n : nat) : forall a,
  a <= j < a + n ->
  sum_R (map (fun i => if j =? i then 0 else f i)%R (seq a n))
  = (sum_R (map f (seq a n)) - f j)%R.
Proof.
  induction n as [|n IH]; intros a Hj; [lia|].
  cbn [seq map]. change (sum_R (?x :: ?l)) with (x + sum_R l)%R.
  destruct (Nat.eqb_spec j a) as [->|Hne].
  - rewrite (map_ext_in (fun i => if a =? i then 0%R else f i) f).
    + ring.
    + intros i Hi. apply in_seq in Hi.
      destruct (Nat.eqb_spec a i); [lia | reflexivity].
  - rewrite IH by lia. ring.
Qed.

Lemma all_nth_repeat (s : list R) (x : R) :
  (forall j, j < length s -> nth j s 0%R = x) -> s = repeat x (length s).
Proof.
  induction s as [|a s IH]; intros H; [reflexivity|].
  cbn [length repeat]. f_equal.
  - apply (H 0). simpl. lia.
  - apply IH. intros j Hj. apply (H (S j)). simpl. lia.
Qed.

Lemma column_error_cost_matrix n j :
  j < n ->
  column (error_cost_matrix n) j
  = map (fun i => if j =? i then 0%R else 1%R) (seq 0 n).
Proof.
  intros Hj. unfold column, error_cost_matrix. rewrite map_map.
  apply map_ext. intros i.
  rewrite (@nth_map_lt _ _ (fun j0 => if j0 =? i then 0%R else 1%R)
             (seq 0 n) j 0 0%R) by (rewrite length_seq; exact Hj).
  rewrite seq_nth by exact Hj. reflexivity.
Qed.

Lemma dot_except (s : list R) (j : nat) :
  j < length s ->
  dot s (map (fun i => if j =? i then 0%R else 1%R) (seq 0 (length s)))
  = (sum_R s - nth j s 0)%R.
Proof.
  intros Hj. unfold dot, vmul.
  rewrite (list_as_map_nth s) at 1. rewrite map2_map_map.
  rewrite (map_ext (fun x => nth x s 0 * (if j =? x then 0 else 1))%R
                   (fun i => if j =? i then 0 else nth i s 0)%R).
  2:{ intros i. destruct (j =? i); ring. }
  rewrite sum_R_except by lia.
  rewrite <- (list_as_map_nth s). reflexivity.
Qed.

Lemma square_error_cost_matrix n : square n (error_cost_matrix n).
Proof.
  unfold square, error_cost_matrix. split.
  - rewrite length_map, length_seq. reflexivity.
  - apply Forall_forall. intros row Hrow. apply in_map_iff in Hrow.
    destruct Hrow as (i & <- & _). rewrite length_map, length_seq.
    reflexivity.
Qed.

(** For the misclassification-error cost matrix (zero on the diagonal, one
    elsewhere) of two or more classes the optimal prior is uniform: every
    entry is [1 / n_classes]. *)
Theorem calculate_optimal_prior_error_uniform
    (linalg_inv : matrix -> result matrix) (n : nat) (Ci : matrix) :
  2 <= n ->
  linalg_inv (error_cost_matrix n) = inr Ci ->
  inverse_of n (error_cost_matrix n) Ci ->
  calculate_optimal_prior linalg_inv (Some (error_cost_matrix n))
  = inr (np_full n (1 / INR n)%R).
Proof.
  intros Hn Hinv Hio.
  rewrite (@calculate_optimal_prior_Some linalg_inv n _ Ci
             ltac:(lia) Hinv Hio).
  destruct (all_nonneg (column_sums Ci)) eqn:Hnn; [|reflexivity].
  destruct Hio as (HC & HCi & Hmul).
  assert (H1 : 1 <= n) by lia.
  pose proof (ncols_square H1 HC) as HcC.
  pose proof (ncols_square H1 HCi) as HcCi.
  set (s := column_sums Ci) in *.
  assert (Hls : length s = n).
  { unfold s, column_sums. rewrite length_map, length_seq. exact HcCi. }
  assert (Hs : vecmat_acc n s (error_cost_matrix n) = np_ones n).
  { unfold s. rewrite <- (vecmat_ones_square H1 HCi). unfold vecmat.
    rewrite HcCi. destruct HC as [HCl HCr]. destruct HCi as [HCil HCir].
    rewrite (vecmat_acc_assoc HCr HCir).
    unfold matmul, vecmat in Hmul. rewrite HcC in Hmul. rewrite Hmul.
    apply vecmat_acc_eye. apply repeat_length. }
  rewrite vecmat_acc_dots in Hs;
    [| exact (proj2 HC) | rewrite Hls; symmetry; exact (proj1 HC)].
  assert (Hj : forall j, j < length s -> nth j s 0%R = (sum_R s - 1)%R).
  { intros j Hjl. rewrite Hls in Hjl.
    assert (E : nth j (map (fun j0 => dot s (column (error_cost_matrix n) j0))
                           (seq 0 n)) 0%R
                = nth j (np_ones n) 0%R) by (rewrite Hs; reflexivity).
    rewrite (@nth_map_lt _ _ (fun j0 => dot s (column (error_cost_matrix n) j0))
               (seq 0 n) j 0 0%R) in E by (rewrite length_seq; exact Hjl).
    rewrite seq_nth in E by exact Hjl. cbn [Nat.add] in E.
    rewrite column_error_cost_matrix in E by exact Hjl.
    rewrite <- Hls in E at 1. rewrite dot_except in E by lia.
    unfold np_ones in E. rewrite nth_repeat_lt in E by exact Hjl. lra. }
  apply all_nth_repeat in Hj. rewrite Hls in Hj.
  assert (HS : (sum_R s = INR n * (sum_R s - 1))%R).
  { rewrite Hj at 1. apply sum_R_repeat. }
  assert (HnR : (2 <= INR n)%R).
  { change 2%R with (INR 2). apply le_INR. exact Hn. }
  assert (HSne : sum_R s <> 0%R).
  { intros E0. rewrite E0 in HS. lra. }
  f_equal. remember (sum_R s) as S eqn:ES. rewrite Hj. unfold np_full.
  rewrite <- (map_const_seq _ 0 n), <- (map_const_seq (1 / INR n)%R 0 n).
  rewrite map_map. apply map_ext. intros _.
  apply (Rmult_eq_reg_r (INR n * S)%R).
  - field_simplify; [lra | lra | exact HSne].
  - apply Rmult_integral_contrapositive_currified; [lra | exact HSne].
Qed.

Lemma calculate_optimal_prior_error_uniform_witness :
  calculate_optimal_prior inv_2x2 (Some (error_cost_matrix 2))
  = inr (np_full 2 (1 / INR 2)%R).
Proof.
  apply (@calculate_optimal_prior_error_uniform inv_2x2 2
           [[0; 1]; [1; 0]]%R).
  - lia.
  - exact inv_2x2_swap.
  - exact swap_inverse_of.
Defined.

(** ** Batch gain mode and the full batch mode of XPAL.query *)




Section BatchGainFacts.

Variables (n_cand n_lbld : nat) (X_eval_is_None : bool).
Variable prob_cand_X : nat -> nat -> R.
Variable cond_prob : list Z -> list nat -> Z -> nat -> R.
Variable perf_delta : list Z -> list nat -> R.
Variable uninit : R.
Variables (n_classes : nat) (all_eq : bool).

Let W := weighted_delta prob_cand_X perf_delta n_classes all_eq.

Lemma set_cell_batch (pre : matrix) (rest : matrix) (x v : R) :
  set_cell (pre ++ [x] :: rest) (length pre) 0 v = pre ++ [v] :: rest.
Proof.
  unfold set_cell. rewrite firstn_app, Nat.sub_diag, firstn_all, skipn_app.
  rewrite Nat.sub_diag, skipn_all. cbn [firstn skipn app]. rewrite app_nil_r.
  reflexivity.
Qed.

Lemma batch_loop_writes_cells (M : nat) : forall rest pre,
  Forall (fun c => Forall (fun i => (0 <= i < Z.of_nat n_cand)%Z) c
                   /\ 1 <= length c <= M) rest ->
  for_enumerate (length pre) rest
    (fun i_org_cand_idx org_cand_idx tmp_utilities =>
       (tmp_utilities <-
          for_enumerate 0 [org_cand_idx]
            (fun i_cand_idx cand_idx tmp_utilities =>
               v <- gain_cell n_cand n_lbld X_eval_is_None prob_cand_X
                      cond_prob perf_delta
                      (map (fun n => _get_y_sim_list n_classes n all_eq)
                           (seq 1 M))
                      true cand_idx ;;
               inr (set_cell tmp_utilities i_org_cand_idx i_cand_idx v))
            tmp_utilities ;;
        inr tmp_utilities)%py)
    (pre ++ np_full (length rest) [uninit])
  = inr (pre ++ map (fun c => [W c]) rest).
Proof.
  induction rest as [|c rest IH]; intros pre Hok.
  - reflexivity.
  - inversion Hok as [|? ? [Hidx Hlen] Hrest]; subst.
    cbn [for_enumerate length np_full repeat].
    rewrite (@gain_cell_independent n_cand n_lbld X_eval_is_None prob_cand_X
               cond_prob perf_delta n_classes all_eq M c Hidx Hlen).
    cbn [bind]. rewrite set_cell_batch.
    specialize (IH (pre ++ [[W c]]) Hrest).
    rewrite length_app, Nat.add_1_r in IH. cbn [length] in IH.
    unfold np_full in IH. rewrite <- !app_assoc in IH. exact IH.
Qed.

(** In batch gain mode with independent probabilities, the utility of each
    index set is the probability-weighted sum of performance deltas over its
    hypothetical labelings; no division by the depth takes place. *)
Theorem nonmyopic_gain_batch (org : list Z) (rest : list (list Z)) :
  1 <= length org ->
  Forall (fun c => length c = length org
                   /\ Forall (fun i => (0 <= i < Z.of_nat n_cand)%Z) c)
         (org :: rest) ->
  nonmyopic_gain n_cand n_lbld X_eval_is_None prob_cand_X cond_prob
    perf_delta uninit (org :: rest) n_classes Batch true all_eq
  = inr (map (fun c => [weighted_delta prob_cand_X perf_delta n_classes
                          all_eq c])
             (org :: rest)).
Proof.
  intros Hlen Hok. unfold nonmyopic_gain. cbn [shape1 bind].
  apply (@batch_loop_writes_cells (length org) (org :: rest) []).
  revert Hok. apply Forall_impl. intros c [Hc Hidx]. split; [exact Hidx | lia].
Qed.

End BatchGainFacts.

Lemma nonmyopic_gain_batch_witness :
  nonmyopic_gain 2 1 true (fun _ _ => (1 / 2)%R) (fun _ _ _ _ => 0%R)
    (fun _ _ => 1%R) 0%R [[0; 1]; [1; 0]]%Z 2 Batch true true
  = inr (map (fun c => [weighted_delta (fun _ _ => (1 / 2)%R)
                          (fun _ _ => 1%R) 2 true c])
             [[0; 1]; [1; 0]]%Z).
Proof.
  apply nonmyopic_gain_batch.
  - simpl. lia.
  - repeat constructor; simpl; lia.
Defined.



Section FullModeFacts.

Variable check_cost_matrix : ndarray -> nat -> result unit.
Variable linalg_inv : matrix -> result matrix.
Variable nan_as_int : Z.
Variables (K_c_c sim_nan : matrix).
Variable argsort : list R -> list Z.
Variable rand_argmax : list R -> Z.
Variable prob_cand_X : list R -> nat -> nat -> R.
Variable cond_prob : list R -> list Z -> list nat -> Z -> nat -> R.
Variable perf_delta : list R -> list Z -> list nat -> R.
Variable uninit : R.



End FullModeFacts.


Section QueryEdgeCases.

Variable check_cost_matrix : ndarray -> nat -> result unit.
Variable linalg_inv : matrix -> result matrix.
Variable nan_as_int : Z.
Variables (K_c_c sim_nan : matrix).
Variable argsort : list R -> list Z.
Variable rand_argmax : list R -> Z.
Variable prob_cand_X : list R -> nat -> nat -> R.
Variable cond_prob : list R -> list Z -> list nat -> Z -> nat -> R.
Variable perf_delta : list R -> list Z -> list nat -> R.
Variable uninit : R.




(** A batch mode other than ['full'] and ['greedy'] is rejected with
    [ValueError] only at the end of the query: the prior has been derived
    by then, and no utility has been evaluated. *)
Theorem query_unknown_batch_mode_raises self n_cand n_lbld n_classes
    X_eval_is_None batch_size tr prior :
  self.(batch_mode) <> "full"%string ->
  self.(batch_mode) <> "greedy"%string ->
  _transform_metric check_cost_matrix self.(metric) self.(cost_vector)
    self.(cost_matrix) self.(custom_perf_func) n_classes = inr tr ->
  optimal_prior_of linalg_inv (snd (fst tr)) = inr prior ->
  let run := query check_cost_matrix linalg_inv nan_as_int K_c_c sim_nan
               argsort rand_argmax prob_cand_X cond_prob perf_delta uninit
               self n_cand n_lbld n_classes X_eval_is_None batch_size in
  snd run = inl ValueError
  /\ In EvPrior (fst run)
  /\ existsb is_gain (fst run) = false.
Proof.
  intros Hfull Hgreedy Htr Hp run. subst run. unfold query.
  rewrite Htr, bindM_lift_inr, bindM_emit, Hp, bindM_lift_inr.
  apply String.eqb_neq in Hfull, Hgreedy. rewrite Hfull, Hgreedy.
  unfold pairwise_kernels.
  destruct (n_cand =? 0);
    [split; [reflexivity | split; [left; reflexivity | reflexivity]]|].
  destruct X_eval_is_None,
    ((1 <? batch_size) || (1 <? nonmyopic_look_ahead self));
    (split; [reflexivity | split; [left; reflexivity | reflexivity]]).
Qed.

End QueryEdgeCases.



Lemma query_unknown_batch_mode_raises_witness :
  let run := query check_any inv_2x2 int64_min [[1]]%R [] argsort_sorted
               argmax_first prob_half cond_half delta_one 0%R
               (xpal_default "sequential" 1 "same") 1 1 2 true 1 in
  snd run = inl ValueError
  /\ In EvPrior (fst run)
  /\ existsb is_gain (fst run) = false.
Proof.
  destruct optimal_prior_error_2 as [p Hp].
  eapply (@query_unknown_batch_mode_raises check_any inv_2x2 int64_min
            [[1]]%R [] argsort_sorted argmax_first prob_half cond_half
            delta_one 0%R (xpal_default "sequential" 1 "same") 1 1 2 true 1);
    [discriminate | discriminate | reflexivity | exact Hp].
Defined.

(** ** The greedy pass with nearest neighbours on a NaN-filled similarity *)







Section NearestOnNaN.

Variable check_cost_matrix : ndarray -> nat -> result unit.
Variable linalg_inv : matrix -> result matrix.
Variable nan_as_int : Z.
Variable K_c_c : matrix.
Variable argsort : list R -> list Z.
Variable rand_argmax : list R -> Z.
Variable prob_cand_X : list R -> nat -> nat -> R.
Variable cond_prob : list R -> list Z -> list nat -> Z -> nat -> R.
Variable perf_delta : list R -> list Z -> list nat -> R.
Variable uninit : R.

(** The value [np.nan] stands for in the similarity matrix of line 367. *)
Variable nan : R.


End NearestOnNaN.


(** ** The greedy pass with the candidates as their own neighbours *)




Section GreedySame.

Variable check_cost_matrix : ndarray -> nat -> result unit.
Variable linalg_inv : matrix -> result matrix.
Variable nan_as_int : Z.
Variable K_c_c : matrix.
Variable argsort : list R -> list Z.
Variable rand_argmax : list R -> Z.
Variable prob_cand_X : list R -> nat -> nat -> R.
Variable cond_prob : list R -> list Z -> list nat -> Z -> nat -> R.
Variable perf_delta : list R -> list Z -> list nat -> R.
Variable uninit : R.
Variable nan : R.


End GreedySame.


(** ** _cost_reduction on doubles: overflow of [1 / B(k + prior)] *)


(** Inside the range of normal doubles the same function returns the closed
    form up to rounding: at [k = [5, 5]], prior 1 and [m_max = 1] the
    utility is 1/26 = 0.0384615... *)
Example cost_reduction_double_at_5_5 :
  Float64._cost_reduction Float64.gammaln_at_5 Float64.exp_at_5
    Float64.factorial_small [[5; 5]]%float None 1
    (Float64.PriorScalar 1%float)
  = inr [0x1.3b13b13b13aa8p-5%float].
Proof. vm_compute. reflexivity. Qed.
